(** * MessageQueue: the timed message queue of SurfaceFlinger

    A shallow embedding of libs/surfaceflinger/MessageQueue.cpp:
    [MessageList::insert], [MessageList::remove],
    [MessageQueue::waitMessage], [MessageQueue::postMessage],
    [MessageQueue::queueMessage], [MessageQueue::invalidate],
    [MessageQueue::dump] and [MessageQueue::dumpLocked].

    Conventions.
    - [nsecs_t] is a signed 64-bit count of nanoseconds.  Instants and
      durations are integers of [Z] and the two sums of the source
      ([systemTime() + timeout], line 69, and [systemTime() + relTime], line
      157) are computed exactly.  The 64-bit sum of the source, [int64_add],
      is the exact sum whenever that is representable ([in_int64],
      [int64_add_exact]) and wraps around otherwise; a theorem that depends
      on the value of one of these sums assumes that it is representable.
    - Messages are handled through [sp<MessageBase>], a shared pointer that
      may be null.  The objects live in a store indexed by addresses, the
      list holds addresses, and [message->when = ...] updates the store, so
      every alias of the object sees the new value.
    - The mutex makes every locked region atomic; a locked region is one
      function of the state.  What happens while the consumer does not hold
      the lock (producers calling [postMessage] or [invalidate], the clock
      advancing, the condition variable waking up) is supplied by an
      environment, one [tick] per reading of [systemTime()] by the consumer. *)

From Stdlib Require Import ZArith List Bool Lia Sorted Permutation Ascii.
Import ListNotations.
Local Open Scope Z_scope.

(** ** Messages and the store *)

Definition ptr := nat.

(** [sp<MessageBase>]: [None] is the null pointer. *)
Definition sp := option ptr.

(** The fields of [MessageBase] the queue touches.  [handler] is the value
    the virtual [handler()] of the object returns when the consumer
    dispatches it. *)
Record MessageBase := mkMessage {
  when : Z;
  what : Z;
  handler : bool
}.

Definition store := ptr -> MessageBase.

Definition set_when (t : Z) (m : MessageBase) : MessageBase :=
  {| when := t; what := what m; handler := handler m |}.

Definition update (h : store) (p : ptr) (f : MessageBase -> MessageBase) : store :=
  fun x => if Nat.eqb x p then f (h x) else h x.

(** Modelled from the spec: [operator<] of [MessageBase] is declared in
    MessageQueue.h, which is not among the sources; the data model gives it as
    the strict less-than on [when]. *)
Definition MessageBase_lt (lhs rhs : MessageBase) : bool :=
  when lhs <? when rhs.

(** ** The list container

    [mList] is a [List< sp<MessageBase> >] and the code walks it with
    [LIST::iterator].  [List] comes from utils/List.h, which is not among the
    sources: it is a doubly-linked ring closed by a sentinel node
    ([mpMiddle]).  [end()] is the sentinel, [begin()] is the node after the
    sentinel, [operator++] moves to the next node of the ring, [insert(pos,
    v)] links [v] in front of [pos] and [erase(pos)] unlinks [pos].  An
    iterator is modelled by the number of elements in front of it,
    [length l] being the sentinel. *)
Module LIST.

Definition iterator := nat.

Definition begin (l : list ptr) : iterator := 0%nat.

Definition end_ (l : list ptr) : iterator := length l.

(** [++it]: the node after the sentinel is the first element (the sentinel
    itself when the list is empty). *)
Definition incr (l : list ptr) (it : iterator) : iterator :=
  if Nat.eqb it (length l) then 0%nat else S it.

Definition insert (l : list ptr) (pos : iterator) (v : ptr) : list ptr :=
  firstn pos l ++ v :: skipn pos l.

Definition erase (l : list ptr) (pos : iterator) : list ptr :=
  firstn pos l ++ skipn (S pos) l.

End LIST.

(** ** MessageList *)

(** The [while (cur != end)] loop of [MessageList::insert].  [rest] holds the
    elements from [cur] on, so [cur != end] is [rest <> []] and [**cur] is
    its head; inside the loop [cur] is not the sentinel, so [++cur] is the
    next position.  After the loop the node is inserted at [++end]. *)
Fixpoint insert_loop (h : store) (node : ptr) (mList : list ptr)
    (cur : LIST.iterator) (rest : list ptr) : list ptr :=
  match rest with
  | [] => LIST.insert mList (LIST.incr mList (LIST.end_ mList)) node
  | c :: rest' =>
      if MessageBase_lt (h node) (h c) then LIST.insert mList cur node
      else insert_loop h node mList (S cur) rest'
  end.

Definition MessageList_insert (h : store) (node : ptr) (mList : list ptr) : list ptr :=
  insert_loop h node mList (LIST.begin mList) mList.

Definition MessageList_remove (mList : list ptr) (pos : LIST.iterator) : list ptr :=
  LIST.erase mList pos.

(** The last statement with [end] in place of [++end]; used to locate the
    defect of [MessageList::insert]. *)
Fixpoint insert_loop_at_end (h : store) (node : ptr) (mList : list ptr)
    (cur : LIST.iterator) (rest : list ptr) : list ptr :=
  match rest with
  | [] => LIST.insert mList (LIST.end_ mList) node
  | c :: rest' =>
      if MessageBase_lt (h node) (h c) then LIST.insert mList cur node
      else insert_loop_at_end h node mList (S cur) rest'
  end.

(** Ascending by [when]. *)
Definition sorted_by_when (h : store) (l : list ptr) : Prop :=
  Sorted (fun a b => when (h a) <= when (h b)) l.

(** ** MessageQueue *)

(** Modelled from the spec: [status_t] and its values come from
    utils/Errors.h, which is not among the sources; the error taxonomy of the
    spec names success and the two error kinds below.  The source only ever
    mentions [NO_ERROR]. *)
Inductive status_t := NO_ERROR | AllocationFailure | InvalidArgument.

(** The memory of the message objects together with the members of
    [MessageQueue] that the lock protects. *)
Record state := mkState {
  heap : store;
  mMessages : list ptr;
  mInvalidate : bool;
  mInvalidateMessage : ptr
}.

(** [MessageQueue::MessageQueue()]: no message, latch clear;
    [invalidateMessage] is the address of the object made by
    [new MessageBase(INVALIDATE)]. *)
Definition MessageQueue_new (h : store) (invalidateMessage : ptr) : state :=
  {| heap := h; mMessages := []; mInvalidate := false;
     mInvalidateMessage := invalidateMessage |}.

(** [MessageQueue::invalidate]. *)
Definition invalidate (s : state) : status_t * state :=
  (NO_ERROR,
   {| heap := heap s; mMessages := mMessages s; mInvalidate := true;
      mInvalidateMessage := mInvalidateMessage s |}).

(** [MessageQueue::queueMessage], with [now] the value of [systemTime()]
    read under the lock.  [message->when] dereferences the pointer without a
    test: on a null pointer the call does not come back with a status, which
    is [None].  The sum [now + relTime] is exact; it is the sum of line 157
    when it is representable in 64 bits. *)
Definition queueMessage (s : state) (message : sp) (relTime : Z) (flags : Z)
    (now : Z) : option (status_t * state) :=
  match message with
  | None => None
  | Some m =>
      let h := update (heap s) m (set_when (now + relTime)) in
      Some (NO_ERROR,
            {| heap := h; mMessages := MessageList_insert h m (mMessages s);
               mInvalidate := mInvalidate s;
               mInvalidateMessage := mInvalidateMessage s |})
  end.

(** [MessageQueue::postMessage]. *)
Definition postMessage (s : state) (message : sp) (relTime : Z) (flags : Z)
    (now : Z) : option (status_t * state) :=
  queueMessage s message relTime flags now.

(** *** One pass of the locked loop of [waitMessage] *)

(** How a pass that does not leave the loop ends: [mCondition.wait(mLock,
    nextEventTime)], [mCondition.wait(mLock)], or no wait at all (when
    [nextEventTime] is zero). *)
Inductive parking := WaitUntil (abstime : Z) | WaitForever | NoWait.

Inductive pass :=
| Break (result : sp) (s : state)
| Again (w : parking) (s : state).

(** Lines 103-121: clamp [nextEventTime] to the deadline and choose the wait. *)
Definition choose_wait (timeout timeoutTime nextEventTime : Z) : parking :=
  let nextEventTime :=
    if (0 <=? timeout) && (0 <? nextEventTime) then
      if timeoutTime <? nextEventTime then timeoutTime else nextEventTime
    else nextEventTime in
  if 0 <=? nextEventTime then
    if 0 <? nextEventTime then WaitUntil nextEventTime else NoWait
  else WaitForever.

(** Lines 71-121.  [result] is null whenever a pass starts: it is
    default-constructed, every pass that stays in the loop resets it (line
    100) or never sets it, and the outer loop only comes back after line 132. *)
Definition locked_pass (timeout timeoutTime now : Z) (s : state) : pass :=
  if mInvalidate s then
    Break (Some (mInvalidateMessage s))
      {| heap := update (heap s) (mInvalidateMessage s) (set_when now);
         mMessages := mMessages s; mInvalidate := false;
         mInvalidateMessage := mInvalidateMessage s |}
  else
    match mMessages s with
    | cur :: _ =>
        if when (heap s cur) <=? now then
          Break (Some cur)
            {| heap := heap s;
               mMessages := MessageList_remove (mMessages s) (LIST.begin (mMessages s));
               mInvalidate := mInvalidate s;
               mInvalidateMessage := mInvalidateMessage s |}
        else if (0 <=? timeout) && (timeoutTime <? now) then
          Break None s
        else
          Again (choose_wait timeout timeoutTime (when (heap s cur))) s
    | [] => Again (choose_wait timeout timeoutTime (-1)) s
    end.

(** *** The environment *)

(** A call made by a producer thread.  [PostMessage m relTime flags t] is
    [postMessage] of the object at [m] when the clock reads [t]. *)
Inductive call :=
| PostMessage (message : ptr) (relTime : Z) (flags : Z) (t : Z)
| Invalidate.

Definition producer (s : state) (c : call) : state :=
  match c with
  | PostMessage m relTime flags t =>
      match postMessage s (Some m) relTime flags t with
      | Some (_, s') => s'
      | None => s
      end
  | Invalidate => snd (invalidate s)
  end.

(** One reading of [systemTime()] by the consumer: the calls the producers
    completed since the previous reading, and the value read. *)
Record tick := mkTick {
  producers : list call;
  time : Z
}.

(** *** The two loops of [waitMessage] *)

(** Where the consumer is about to read the clock: at the head of the
    [do ... while (again)] loop (line 69), or at the head of the
    [while (true)] loop (line 72) with the deadline in force. *)
Inductive position := Outer | Inner (timeoutTime : Z).

(** What the call does that is visible from outside. *)
Inductive event :=
| Enter (t : Z)
| Wait (w : parking)
| TimedOut
| Handler (p : ptr) (again : bool).

Inductive outcome := Returned (result : sp) | Pending.

Record run := mkRun {
  result : outcome;
  final : state;
  trace : list event
}.

Definition log (e : event) (r : run) : run :=
  {| result := result r; final := final r; trace := e :: trace r |}.

(** The consumer runs until the call returns or the environment is used up,
    in which case the call is still [Pending].  The sum [time tk + timeout]
    is exact; it is the sum of line 69 when it is representable in 64
    bits. *)
Fixpoint exec (timeout : Z) (env : list tick) (at_ : position) (s : state) : run :=
  match env with
  | [] => {| result := Pending; final := s; trace := [] |}
  | tk :: env' =>
      let s0 := fold_left producer (producers tk) s in
      match at_ with
      | Outer =>
          log (Enter (time tk)) (exec timeout env' (Inner (time tk + timeout)) s0)
      | Inner timeoutTime =>
          match locked_pass timeout timeoutTime (time tk) s0 with
          | Again w s1 => log (Wait w) (exec timeout env' (Inner timeoutTime) s1)
          | Break None s1 =>
              {| result := Returned None; final := s1; trace := [TimedOut] |}
          | Break (Some p) s1 =>
              if handler (heap s1 p) then
                log (Handler p true) (exec timeout env' Outer s1)
              else
                {| result := Returned (Some p); final := s1;
                   trace := [Handler p false] |}
          end
      end
  end.

(** [MessageQueue::waitMessage]. *)
Definition waitMessage (timeout : Z) (env : list tick) (s : state) : run :=
  exec timeout env Outer s.

(** ** Properties stated on runs *)

(** A tick during which no producer called the queue. *)
Definition quiet (t : Z) : tick := {| producers := []; time := t |}.

(** [c] is strictly later than [node]: the test [*node < **cur] of the scan. *)
Definition is_later (h : store) (node c : ptr) : bool :=
  MessageBase_lt (h node) (h c).

(** Insertion as the data model words it: in front of the first element
    that is strictly later, at the end when there is none. *)
Fixpoint insert_sorted (h : store) (node : ptr) (l : list ptr) : list ptr :=
  match l with
  | [] => [node]
  | e :: l' =>
      if MessageBase_lt (h node) (h e) then node :: l
      else e :: insert_sorted h node l'
  end.

(** Every timed wait of a trace ends no later than the deadline in force,
    which each entry of the outer loop sets to its own clock reading plus the
    timeout. *)
Fixpoint waits_within (timeout deadline : Z) (tr : list event) : Prop :=
  match tr with
  | [] => True
  | Enter t :: tr' => waits_within timeout (t + timeout) tr'
  | Wait (WaitUntil d) :: tr' => d <= deadline /\ waits_within timeout deadline tr'
  | _ :: tr' => waits_within timeout deadline tr'
  end.

(** One deadline for the whole call: no timed wait ends after the clock
    reading at entry plus the timeout. *)
Definition deadline_fixed_at_entry (timeout : Z) (env : list tick) (s : state) : Prop :=
  match env with
  | [] => True
  | tk :: _ =>
      forall d, In (Wait (WaitUntil d)) (trace (waitMessage timeout env s)) ->
                d <= time tk + timeout
  end.

(** A negative delay is either refused or counted as zero. *)
Definition clamps_or_rejects (s : state) (m : ptr) (relTime flags now : Z) : Prop :=
  relTime < 0 ->
  match postMessage s (Some m) relTime flags now with
  | Some (st, s') => st <> NO_ERROR \/ when (heap s' m) = now
  | None => False
  end.

(** The call comes back with [NO_ERROR]. *)
Definition post_succeeds (s : state) (message : sp) (relTime flags now : Z) : Prop :=
  exists s', postMessage s message relTime flags now = Some (NO_ERROR, s').


(** ** Concrete objects and runs *)

(** Object 0 is the invalidate message; 1, 2 and 3 are ordinary messages
    whose handlers return false, false and true. *)
Definition objects : store :=
  fun p =>
    match p with
    | 1%nat => {| when := 5; what := 1; handler := false |}
    | 2%nat => {| when := 7; what := 2; handler := false |}
    | 3%nat => {| when := 0; what := 3; handler := true |}
    | _ => {| when := 0; what := 0; handler := false |}
    end.

Definition fresh_queue : state := MessageQueue_new objects 0%nat.

(** Message 2 is posted for time 15 and message 3 for time 0; the consumer
    enters [waitMessage 10] at time 0, dispatches 3 (whose handler asks to go
    on), comes back to the head of the outer loop at time 8, and is woken at
    time 15. *)
Definition redispatch_env : list tick :=
  [ {| producers := [PostMessage 2%nat 15 0 0; PostMessage 3%nat 0 0 0]; time := 0 |};
    quiet 0; quiet 8; quiet 8; quiet 15 ].

(** ** Diagnostics *)

(** [*cur == message] on two [sp]: the pointers are compared. *)
Definition sp_eqb (a b : sp) : bool :=
  match a, b with
  | Some x, Some y => Nat.eqb x y
  | None, None => true
  | _, _ => false
  end.

(** The arguments of one [LOGD] call of [dumpLocked]: the tick, the counter
    [c], [what] and [when]. *)
Record dump_line := mkLine {
  line_tick : ascii;
  line_index : Z;
  line_what : Z;
  line_when : Z
}.

(** The loop of [MessageQueue::dumpLocked]; [rest] holds the elements from
    [cur] on and [c] is the counter. *)
Fixpoint dumpLocked_loop (h : store) (message : sp) (rest : list ptr) (c : Z)
    : list dump_line :=
  match rest with
  | [] => []
  | cur :: rest' =>
      let tick := if sp_eqb (Some cur) message then ">"%char else " "%char in
      {| line_tick := tick; line_index := c;
         line_what := what (h cur); line_when := when (h cur) |}
      :: dumpLocked_loop h message rest' (c + 1)
  end.

(** [MessageQueue::dumpLocked]: the lines it logs. *)
Definition dumpLocked (s : state) (message : sp) : list dump_line :=
  dumpLocked_loop (heap s) message (mMessages s) 0.

(** [MessageQueue::dump]: [dumpLocked] under the lock; the state is only
    read. *)
Definition dump (s : state) (message : sp) : list dump_line * state :=
  (dumpLocked s message, s).

(** ** Bookkeeping on runs *)

(** The messages whose handlers a trace ran, in order. *)
Fixpoint dispatched (tr : list event) : list ptr :=
  match tr with
  | [] => []
  | Handler p _ :: tr' => p :: dispatched tr'
  | _ :: tr' => dispatched tr'
  end.

(** What the consumer has to deliver, in the order in which the locked loop
    looks at it: the invalidate message when the latch is set, then the
    list. *)
Definition pending (s : state) : list ptr :=
  (if mInvalidate s then [mInvalidateMessage s] else []) ++ mMessages s.

(** The messages a sequence of producer calls posts, in the order of the
    calls. *)
Fixpoint posted (cs : list call) : list ptr :=
  match cs with
  | [] => []
  | PostMessage m _ _ _ :: cs' => m :: posted cs'
  | Invalidate :: cs' => posted cs'
  end.

(** ** 64-bit arithmetic *)

Definition INT64_MIN : Z := - 2 ^ 63.
Definition INT64_MAX : Z := 2 ^ 63 - 1.

(** Representable in [nsecs_t]. *)
Definition in_int64 (z : Z) : Prop := INT64_MIN <= z <= INT64_MAX.

(** The sum of two [nsecs_t] as the machine computes it, wrapping around. *)
Definition int64_add (a b : Z) : Z := (a + b + 2 ^ 63) mod 2 ^ 64 - 2 ^ 63.

(** ** Posts within a call *)



(** * Theorems *)

(** ** 64-bit sums *)

(** The machine sum is the exact sum whenever that is representable. *)
Lemma int64_add_exact (a b : Z) :
  in_int64 (a + b) -> int64_add a b = a + b.
Proof.
  unfold in_int64, INT64_MIN, INT64_MAX, int64_add. intros H.
  rewrite Z.mod_small by lia. lia.
Qed.

(** Otherwise it wraps around: a delay near the largest value gives a time
    in the past. *)
Example int64_add_wraps :
  int64_add 1000 INT64_MAX = INT64_MIN + 999.
Proof. reflexivity. Qed.

(** ** MessageList::insert *)

Section Insert.

Variable h : store.
Variable node : ptr.

Local Abbreviation later := (is_later h node).

Lemma firstn_length_app (pre rest : list ptr) :
  firstn (length pre) (pre ++ rest) = pre.
Proof.
  induction pre as [|a pre IH]; simpl.
  - reflexivity.
  - now rewrite IH.
Qed.

Lemma skipn_length_app (pre rest : list ptr) :
  skipn (length pre) (pre ++ rest) = rest.
Proof.
  induction pre as [|a pre IH]; simpl; [reflexivity | exact IH].
Qed.

Lemma LIST_insert_middle (pre rest : list ptr) (v : ptr) :
  LIST.insert (pre ++ rest) (length pre) v = pre ++ v :: rest.
Proof.
  unfold LIST.insert. now rewrite firstn_length_app, skipn_length_app.
Qed.

Lemma LIST_insert_after_end (l : list ptr) (v : ptr) :
  LIST.insert l (LIST.incr l (LIST.end_ l)) v = v :: l.
Proof.
  unfold LIST.incr, LIST.end_. now rewrite Nat.eqb_refl.
Qed.

(** The scan is right; what follows the scan is not: when no element is
    strictly later, the node lands in front of the whole list. *)
Lemma insert_loop_unfold (rest pre : list ptr) :
  insert_loop h node (pre ++ rest) (length pre) rest =
  if existsb later rest then pre ++ insert_sorted h node rest
  else node :: pre ++ rest.
Proof.
  revert pre. induction rest as [|c rest IH]; intros pre; simpl.
  - apply LIST_insert_after_end.
  - fold (later c). destruct (later c) eqn:Hc; simpl.
    + apply LIST_insert_middle.
    + replace (pre ++ c :: rest) with ((pre ++ [c]) ++ rest)
        by now rewrite <- app_assoc.
      replace (S (length pre)) with (length (pre ++ [c]))
        by (rewrite length_app; simpl; lia).
      rewrite IH. destruct (existsb later rest).
      * now rewrite <- app_assoc.
      * reflexivity.
Qed.

Lemma insert_loop_at_end_unfold (rest pre : list ptr) :
  insert_loop_at_end h node (pre ++ rest) (length pre) rest =
  pre ++ insert_sorted h node rest.
Proof.
  revert pre. induction rest as [|c rest IH]; intros pre; simpl.
  - unfold LIST.insert, LIST.end_. rewrite app_nil_r.
    now rewrite firstn_all, skipn_all.
  - fold (later c). destruct (later c) eqn:Hc.
    + apply LIST_insert_middle.
    + replace (pre ++ c :: rest) with ((pre ++ [c]) ++ rest)
        by now rewrite <- app_assoc.
      replace (S (length pre)) with (length (pre ++ [c]))
        by (rewrite length_app; simpl; lia).
      rewrite IH. now rewrite <- app_assoc.
Qed.

Lemma MessageList_insert_unfold (l : list ptr) :
  MessageList_insert h node l =
  if existsb later l then insert_sorted h node l else node :: l.
Proof.
  unfold MessageList_insert, LIST.begin.
  exact (insert_loop_unfold l []).
Qed.

(** What the code gets right: a node with a strictly later element in the
    list goes immediately in front of the first such element. *)
Lemma insert_before_first_later (l1 l2 : list ptr) (e : ptr) :
  (forall x, In x l1 -> when (h x) <= when (h node)) ->
  when (h node) < when (h e) ->
  MessageList_insert h node (l1 ++ e :: l2) = l1 ++ node :: e :: l2.
Proof.
  intros Hl1 He. rewrite MessageList_insert_unfold.
  assert (Hex : existsb later (l1 ++ e :: l2) = true).
  { rewrite existsb_app. simpl. unfold later at 2, MessageBase_lt.
    apply Z.ltb_lt in He. rewrite He. now rewrite orb_true_r. }
  rewrite Hex. clear Hex.
  induction l1 as [|a l1 IH]; simpl.
  - unfold MessageBase_lt. apply Z.ltb_lt in He. now rewrite He.
  - unfold MessageBase_lt at 1.
    assert (Ha : (when (h node) <? when (h a)) = false).
    { apply Z.ltb_ge. apply Hl1. now left. }
    rewrite Ha. f_equal. apply IH. intros x Hx. apply Hl1. now right.
Qed.

Lemma insert_sorted_HdRel (a : ptr) (l : list ptr) :
  when (h a) <= when (h node) ->
  HdRel (fun x y => when (h x) <= when (h y)) a l ->
  HdRel (fun x y => when (h x) <= when (h y)) a (insert_sorted h node l).
Proof.
  intros Ha Hl. destruct l as [|e l]; simpl.
  - now constructor.
  - destruct (MessageBase_lt (h node) (h e)).
    + now constructor.
    + inversion Hl; subst. now constructor.
Qed.

(** With [end] in place of [++end] the list stays sorted. *)
Lemma insert_at_end_keeps_sorted (l : list ptr) :
  sorted_by_when h l ->
  sorted_by_when h (insert_loop_at_end h node l (LIST.begin l) l).
Proof.
  unfold LIST.begin, sorted_by_when.
  pose proof (insert_loop_at_end_unfold l []) as E. simpl in E. rewrite E. clear E.
  induction 1 as [|a l Hs IH Hhd]; simpl.
  - repeat constructor.
  - unfold MessageBase_lt. destruct (when (h node) <? when (h a)) eqn:Hlt.
    + apply Z.ltb_lt in Hlt. constructor.
      * now constructor.
      * constructor. lia.
    + apply Z.ltb_ge in Hlt. constructor.
      * exact IH.
      * now apply insert_sorted_HdRel.
Qed.

End Insert.

(** C7.  [MessageList::insert] does not append: a node that is not strictly
    earlier than any element of the list (so the scan finds no place for it)
    is put in front of the whole list, because the position handed to the
    last [mList.insert] is [++end], the node after the sentinel.  On a
    non-empty list whose last element is strictly earlier than the node the
    result is therefore not sorted. *)
Theorem insert_without_later_element_goes_first :
  forall (h : store) (node : ptr) (l : list ptr),
    (forall e, In e l -> when (h e) <= when (h node)) ->
    MessageList_insert h node l = node :: l /\
    (forall e l', l = e :: l' -> when (h e) < when (h node) ->
       ~ sorted_by_when h (MessageList_insert h node l)).
Proof.
  intros h node l Hall.
  assert (Hins : MessageList_insert h node l = node :: l).
  { rewrite MessageList_insert_unfold.
    replace (existsb (is_later h node) l) with false.
    - reflexivity.
    - symmetry. apply not_true_is_false. intros Hex.
      apply existsb_exists in Hex. destruct Hex as [c [Hc Hlt]].
      unfold is_later, MessageBase_lt in Hlt. apply Z.ltb_lt in Hlt.
      specialize (Hall c Hc). lia. }
  split; [exact Hins|].
  intros e l' -> Hlt Hs. rewrite Hins in Hs.
  unfold sorted_by_when in Hs. inversion Hs as [|a b Hs' Hhd]; subst.
  inversion Hhd; subst. lia.
Qed.

Lemma insert_without_later_element_goes_first_witness :
  (forall e, In e [1%nat] -> when (objects e) <= when (objects 2%nat)) /\
  MessageList_insert objects 2%nat [1%nat] = [2%nat; 1%nat] /\
  ~ sorted_by_when objects (MessageList_insert objects 2%nat [1%nat]).
Proof.
  assert (H : forall e, In e [1%nat] -> when (objects e) <= when (objects 2%nat)).
  { intros e [<-|[]]. simpl. lia. }
  split; [exact H|].
  destruct (insert_without_later_element_goes_first objects 2%nat [1%nat] H)
    as [Hfront Hunsorted].
  split; [exact Hfront|].
  apply (Hunsorted 1%nat []); [reflexivity | simpl; lia].
Defined.

(** Three messages posted for the same time end up in the reverse of the
    order of the posts. *)
Example equal_times_are_reversed :
  MessageList_insert objects 6%nat
    (MessageList_insert objects 5%nat (MessageList_insert objects 4%nat []))
  = [6%nat; 5%nat; 4%nat].
Proof. reflexivity. Qed.

(** ** waitMessage on an empty queue *)

Lemma choose_wait_no_message (timeout timeoutTime : Z) :
  choose_wait timeout timeoutTime (-1) = WaitForever.
Proof.
  unfold choose_wait. now rewrite andb_false_r.
Qed.

Lemma locked_pass_empty (timeout timeoutTime now : Z) (s : state) :
  mMessages s = [] -> mInvalidate s = false ->
  locked_pass timeout timeoutTime now s = Again WaitForever s.
Proof.
  intros Hl Hi. unfold locked_pass. rewrite Hi, Hl.
  now rewrite choose_wait_no_message.
Qed.

(** Inside the locked loop, an empty queue that nobody touches keeps the
    consumer on the condition variable without a deadline, whatever the
    timeout and however far the clock goes. *)
Lemma exec_inner_empty (timeout timeoutTime : Z) (times : list Z) (s : state) :
  mMessages s = [] -> mInvalidate s = false ->
  exec timeout (map quiet times) (Inner timeoutTime) s =
  {| result := Pending; final := s;
     trace := map (fun _ => Wait WaitForever) times |}.
Proof.
  intros Hl Hi. induction times as [|t times IH]; simpl.
  - reflexivity.
  - rewrite (locked_pass_empty _ _ _ _ Hl Hi), IH. reflexivity.
Qed.

Lemma waitMessage_empty (timeout : Z) (times : list Z) (s : state) :
  mMessages s = [] -> mInvalidate s = false ->
  waitMessage timeout (map quiet times) s =
  {| result := Pending; final := s;
     trace := match times with
              | [] => []
              | t :: times' => Enter t :: map (fun _ => Wait WaitForever) times'
              end |}.
Proof.
  intros Hl Hi. unfold waitMessage. destruct times as [|t times]; simpl.
  - reflexivity.
  - now rewrite (exec_inner_empty _ _ _ _ Hl Hi).
Qed.

(** The sibling path: with a message in the list that is not due, the same
    call does report the timeout, as soon as a clock reading is past the
    deadline. *)
Lemma wait_times_out_with_pending_message
    (timeout t0 t1 : Z) (s : state) (cur : ptr) (tl : list ptr) :
  0 <= timeout -> mInvalidate s = false -> mMessages s = cur :: tl ->
  t1 < when (heap s cur) -> t0 + timeout < t1 ->
  result (waitMessage timeout [quiet t0; quiet t1] s) = Returned None.
Proof.
  intros Ht Hi Hl Hdue Hpast. unfold waitMessage. simpl.
  unfold locked_pass. rewrite Hi, Hl.
  replace (when (heap s cur) <=? t1) with false
    by (symmetry; apply Z.leb_gt; lia).
  replace (0 <=? timeout) with true by (symmetry; apply Z.leb_le; lia).
  replace (t0 + timeout <? t1) with true by (symmetry; apply Z.ltb_lt; lia).
  reflexivity.
Qed.

(** C1.  With a timeout [T >= 0], an empty list, a clear latch and no
    producer, [waitMessage] never reports a timeout: after reading the clock
    at entry, every pass of the locked loop ends in [mCondition.wait(mLock)],
    the wait without a deadline, and the call is still pending at every
    later clock reading, also those far beyond [T]. *)
Theorem wait_empty_queue_never_times_out :
  forall (timeout : Z) (times : list Z) (s : state),
    0 <= timeout -> mMessages s = [] -> mInvalidate s = false ->
    let r := waitMessage timeout (map quiet times) s in
    result r = Pending /\ final r = s /\
    trace r = match times with
              | [] => []
              | t :: times' => Enter t :: map (fun _ => Wait WaitForever) times'
              end.
Proof.
  intros timeout times s _ Hl Hi r. subst r.
  rewrite (waitMessage_empty timeout times s Hl Hi). simpl. auto.
Qed.

Lemma wait_empty_queue_never_times_out_witness :
  0 <= 20 /\ mMessages fresh_queue = [] /\ mInvalidate fresh_queue = false /\
  result (waitMessage 20 (map quiet [0; 0; 25; 1000]) fresh_queue) = Pending /\
  trace (waitMessage 20 (map quiet [0; 0; 25; 1000]) fresh_queue) =
    [Enter 0; Wait WaitForever; Wait WaitForever; Wait WaitForever].
Proof.
  destruct (wait_empty_queue_never_times_out 20 [0; 0; 25; 1000] fresh_queue)
    as [Hr [_ Ht]]; [lia | reflexivity | reflexivity |].
  split; [lia|]. split; [reflexivity|]. split; [reflexivity|].
  split; [exact Hr | exact Ht].
Defined.

(** C2.  [waitMessage(0)] on an empty list with a clear latch and no
    producer is not a probe: it never returns, it reports no timeout, and its
    first pass of the locked loop already parks the consumer on the
    condition variable without a deadline. *)
Theorem wait_zero_empty_queue_parks :
  forall (t0 t1 : Z) (times : list Z) (s : state),
    mMessages s = [] -> mInvalidate s = false ->
    let r := waitMessage 0 (map quiet (t0 :: t1 :: times)) s in
    result r = Pending /\
    ~ In TimedOut (trace r) /\
    nth_error (trace r) 1 = Some (Wait WaitForever).
Proof.
  intros t0 t1 times s Hl Hi r. subst r.
  rewrite (waitMessage_empty 0 (t0 :: t1 :: times) s Hl Hi). simpl.
  split; [reflexivity|]. split; [|reflexivity].
  intros [H|[H|H]]; try discriminate.
  apply in_map_iff in H. destruct H as [x [H _]]. discriminate.
Qed.

Lemma wait_zero_empty_queue_parks_witness :
  result (waitMessage 0 (map quiet [0; 1; 2]) fresh_queue) = Pending /\
  nth_error (trace (waitMessage 0 (map quiet [0; 1; 2]) fresh_queue)) 1
    = Some (Wait WaitForever).
Proof.
  destruct (wait_zero_empty_queue_parks 0 1 [2] fresh_queue)
    as [Hr [_ Hp]]; [reflexivity | reflexivity |].
  split; [exact Hr | exact Hp].
Defined.

(** ** The deadline of waitMessage *)

Lemma choose_wait_bounded (timeout timeoutTime nextEventTime d : Z) :
  0 <= timeout ->
  choose_wait timeout timeoutTime nextEventTime = WaitUntil d ->
  d <= timeoutTime.
Proof.
  intros Ht. unfold choose_wait.
  replace (0 <=? timeout) with true by (symmetry; now apply Z.leb_le).
  simpl.
  destruct (0 <? nextEventTime) eqn:Hpos.
  - destruct (timeoutTime <? nextEventTime) eqn:Hcl.
    + destruct (0 <=? timeoutTime); [|discriminate].
      destruct (0 <? timeoutTime); [|discriminate].
      intros [= <-]. lia.
    + apply Z.ltb_ge in Hcl.
      destruct (0 <=? nextEventTime); [|discriminate].
      rewrite Hpos. intros [= <-]. exact Hcl.
  - destruct (0 <=? nextEventTime); [|discriminate].
    rewrite Hpos. discriminate.
Qed.

Lemma locked_pass_wait_bounded (timeout timeoutTime now d : Z) (s s' : state) :
  0 <= timeout ->
  locked_pass timeout timeoutTime now s = Again (WaitUntil d) s' ->
  d <= timeoutTime.
Proof.
  intros Ht. unfold locked_pass.
  destruct (mInvalidate s); [discriminate|].
  destruct (mMessages s) as [|cur tl].
  - rewrite choose_wait_no_message. discriminate.
  - destruct (when (heap s cur) <=? now); [discriminate|].
    destruct ((0 <=? timeout) && (timeoutTime <? now)); [discriminate|].
    intros [= Hw _]. now apply choose_wait_bounded in Hw.
Qed.

Lemma exec_waits_within (timeout : Z) (env : list tick) :
  0 <= timeout ->
  forall (s : state),
    (forall deadline, waits_within timeout deadline (trace (exec timeout env Outer s))) /\
    (forall timeoutTime,
       waits_within timeout timeoutTime (trace (exec timeout env (Inner timeoutTime) s))).
Proof.
  intros Ht. induction env as [|tk env IH]; intros s.
  - split; intros; exact I.
  - split.
    + intros deadline. simpl. apply IH.
    + intros timeoutTime. simpl.
      destruct (locked_pass timeout timeoutTime (time tk)
                  (fold_left producer (producers tk) s)) as [[p|] s1|w s1] eqn:Hp.
      * destruct (handler (heap s1 p)); simpl; [apply IH | exact I].
      * exact I.
      * simpl. destruct w as [d| |].
        -- split; [now apply locked_pass_wait_bounded in Hp | apply IH].
        -- apply IH.
        -- apply IH.
Qed.

(** C3 as stated fails.  The call is entered at time 0 with timeout 10, so a
    deadline computed once would be 10; message 3 is dispatched at once and
    its handler returns true, the outer loop is entered again at time 8, and
    the call then waits for message 2 until time 15 and returns it. *)
Lemma redispatch_extends_deadline :
  ~ deadline_fixed_at_entry 10 redispatch_env fresh_queue /\
  result (waitMessage 10 redispatch_env fresh_queue) = Returned (Some 2%nat) /\
  trace (waitMessage 10 redispatch_env fresh_queue) =
    [Enter 0; Handler 3%nat true; Enter 8; Wait (WaitUntil 15);
     Handler 2%nat false].
Proof.
  split; [|split; reflexivity].
  unfold deadline_fixed_at_entry. simpl. intros H.
  specialize (H 15). assert (15 <= 10) by (apply H; auto 6). lia.
Qed.

(** A pass on a head that is not due, before the deadline: the consumer
    sleeps until the earlier of the head's time and the deadline. *)
Lemma not_due_pass_sleeps (timeout timeoutTime now : Z) (s : state) (cur : ptr)
    (tl : list ptr) :
  mInvalidate s = false -> mMessages s = cur :: tl ->
  now < when (heap s cur) -> 0 < when (heap s cur) ->
  0 <= timeout -> 0 < timeoutTime -> now <= timeoutTime ->
  locked_pass timeout timeoutTime now s =
  Again (WaitUntil (Z.min (when (heap s cur)) timeoutTime)) s.
Proof.
  intros Hi Hl Hdue Hpos Ht Hdl Hnot. unfold locked_pass. rewrite Hi, Hl.
  replace (when (heap s cur) <=? now) with false
    by (symmetry; apply Z.leb_gt; lia).
  unfold choose_wait.
  replace (0 <=? timeout) with true by (symmetry; apply Z.leb_le; lia).
  replace (timeoutTime <? now) with false by (symmetry; apply Z.ltb_ge; lia).
  replace (0 <? when (heap s cur)) with true by (symmetry; apply Z.ltb_lt; lia).
  simpl.
  destruct (timeoutTime <? when (heap s cur)) eqn:Hcl.
  - apply Z.ltb_lt in Hcl.
    replace (0 <=? timeoutTime) with true by (symmetry; apply Z.leb_le; lia).
    replace (0 <? timeoutTime) with true by (symmetry; apply Z.ltb_lt; lia).
    now rewrite Z.min_r by lia.
  - apply Z.ltb_ge in Hcl.
    replace (0 <=? when (heap s cur)) with true by (symmetry; apply Z.leb_le; lia).
    replace (0 <? when (heap s cur)) with true by (symmetry; apply Z.ltb_lt; lia).
    now rewrite Z.min_l by lia.
Qed.

(** A pass on a head that is not due, past the deadline. *)
Lemma not_due_pass_times_out (timeout timeoutTime now : Z) (s : state) (cur : ptr)
    (tl : list ptr) :
  mInvalidate s = false -> mMessages s = cur :: tl ->
  now < when (heap s cur) -> 0 <= timeout -> timeoutTime < now ->
  locked_pass timeout timeoutTime now s = Break None s.
Proof.
  intros Hi Hl Hdue Ht Hpast. unfold locked_pass. rewrite Hi, Hl.
  replace (when (heap s cur) <=? now) with false
    by (symmetry; apply Z.leb_gt; lia).
  replace (0 <=? timeout) with true by (symmetry; apply Z.leb_le; lia).
  replace (timeoutTime <? now) with true by (symmetry; apply Z.ltb_lt; lia).
  reflexivity.
Qed.

(** When the environment runs out right after a handler has returned true,
    the call stands at the head of the outer loop: on a longer environment
    it goes on as [waitMessage] entered afresh in the state reached. *)
Lemma exec_redispatch_app (timeout : Z) (env2 env1 : list tick) :
  forall (at_ : position) (s : state) (pre : list event) (p : ptr),
    trace (exec timeout env1 at_ s) = pre ++ [Handler p true] ->
    result (exec timeout (env1 ++ env2) at_ s)
      = result (exec timeout env2 Outer (final (exec timeout env1 at_ s))) /\
    final (exec timeout (env1 ++ env2) at_ s)
      = final (exec timeout env2 Outer (final (exec timeout env1 at_ s))) /\
    trace (exec timeout (env1 ++ env2) at_ s)
      = trace (exec timeout env1 at_ s)
        ++ trace (exec timeout env2 Outer (final (exec timeout env1 at_ s))).
Proof.
  induction env1 as [|tk env1 IH]; intros at_ s pre p.
  - simpl. destruct pre; discriminate.
  - simpl. destruct at_ as [|timeoutTime].
    + simpl. destruct pre as [|e pre]; [discriminate|].
      intros [= _ H]. destruct (IH _ _ _ _ H) as [Hr [Hf Ht]].
      rewrite Hr, Hf, Ht. auto.
    + destruct (locked_pass timeout timeoutTime (time tk)
                  (fold_left producer (producers tk) s)) as [[q|] s1|w s1].
      * destruct (handler (heap s1 q)); simpl.
        -- destruct pre as [|e pre].
           ++ intros [= _ H]. destruct env1 as [|tk' env1']; [|discriminate H].
              simpl. auto.
           ++ intros [= _ H]. destruct (IH _ _ _ _ H) as [Hr [Hf Ht]].
              rewrite Hr, Hf, Ht. auto.
        -- destruct pre as [|e pre]; [discriminate|].
           destruct pre; discriminate.
      * simpl. destruct pre as [|e pre]; [discriminate|].
        destruct pre; discriminate.
      * simpl. destruct pre as [|e pre]; [discriminate|].
        intros [= _ H]. destruct (IH _ _ _ _ H) as [Hr [Hf Ht]].
        rewrite Hr, Hf, Ht. auto.
Qed.

(** C3, amended.  With a timeout [T >= 0], the deadline is computed at the
    head of every pass of the outer loop: when the call is entered and again
    each time a handler has returned true.  After such a return the call goes
    on exactly as [waitMessage(T)] entered afresh at that moment: result,
    final state and trace are those of the fresh call, appended to what the
    call did before.  The deadline then in force is the clock reading of the
    re-entry plus [T] (taken representable in 64 bits), whatever the reading
    at entry was: with a head that is not due, a pass not past that deadline
    sleeps until the earlier of the head's time and that deadline, and a pass
    past it makes the call return nothing.  Every timed wait of the call ends
    no later than the deadline of the pass of the outer loop it belongs
    to. *)
Theorem redispatch_restarts_deadline :
  forall (timeout : Z) (env1 env2 : list tick) (s : state) (p : ptr)
         (pre : list event),
    0 <= timeout ->
    trace (waitMessage timeout env1 s) = pre ++ [Handler p true] ->
    let r1 := waitMessage timeout env1 s in
    let r2 := waitMessage timeout env2 (final r1) in
    let r := waitMessage timeout (env1 ++ env2) s in
    (result r = result r2 /\ final r = final r2 /\
     trace r = trace r1 ++ trace r2) /\
    (forall deadline, waits_within timeout deadline (trace r)) /\
    (forall (t2 t3 : Z) (rest : list tick) (b : ptr) (tl : list ptr),
       env2 = quiet t2 :: quiet t3 :: rest ->
       in_int64 (t2 + timeout) -> 0 < t2 + timeout ->
       mInvalidate (final r1) = false -> mMessages (final r1) = b :: tl ->
       t3 < when (heap (final r1) b) -> 0 < when (heap (final r1) b) ->
       (t3 <= t2 + timeout ->
        nth_error (trace r) (S (length (trace r1))) =
        Some (Wait (WaitUntil (Z.min (when (heap (final r1) b)) (t2 + timeout))))) /\
       (t2 + timeout < t3 -> result r = Returned None)).
Proof.
  intros timeout env1 env2 s p pre Ht Htr r1 r2 r.
  destruct (exec_redispatch_app timeout env2 env1 Outer s pre p Htr)
    as [Hr [Hf Htrace]].
  fold (waitMessage timeout env1 s) in Hr, Hf, Htrace.
  fold (waitMessage timeout env2 (final (waitMessage timeout env1 s)))
    in Hr, Hf, Htrace.
  fold (waitMessage timeout (env1 ++ env2) s) in Hr, Hf, Htrace.
  fold r1 in Hr, Hf, Htrace. fold r2 in Hr, Hf, Htrace.
  fold r in Hr, Hf, Htrace.
  split; [auto|]. split.
  - intros deadline. subst r. unfold waitMessage. now apply exec_waits_within.
  - intros t2 t3 rest b tl Henv _ Hdl Hi Hl Hdue Hpos. split.
    + intros Hnot. rewrite Htrace.
      rewrite nth_error_app2 by lia.
      replace (S (length (trace r1)) - length (trace r1))%nat with 1%nat by lia.
      subst r2. rewrite Henv. unfold waitMessage. simpl.
      now rewrite (not_due_pass_sleeps timeout (t2 + timeout) t3 (final r1) b tl).
    + intros Hpast. rewrite Hr. subst r2. rewrite Henv.
      unfold waitMessage. simpl.
      now rewrite (not_due_pass_times_out timeout (t2 + timeout) t3 (final r1) b tl).
Qed.

Lemma redispatch_restarts_deadline_witness :
  let env1 := [ {| producers := [PostMessage 2%nat 15 0 0; PostMessage 3%nat 0 0 0];
                   time := 0 |}; quiet 0 ] in
  let env2 := [quiet 8; quiet 12; quiet 15] in
  0 <= 10 /\
  trace (waitMessage 10 env1 fresh_queue) = [Enter 0] ++ [Handler 3%nat true] /\
  result (waitMessage 10 (env1 ++ env2) fresh_queue)
    = result (waitMessage 10 env2 (final (waitMessage 10 env1 fresh_queue))) /\
  nth_error (trace (waitMessage 10 (env1 ++ env2) fresh_queue)) 3
    = Some (Wait (WaitUntil (Z.min 15 (8 + 10)))).
Proof.
  intros env1 env2.
  assert (H0 : 0 <= 10) by lia.
  assert (H1 : trace (waitMessage 10 env1 fresh_queue)
               = [Enter 0] ++ [Handler 3%nat true]) by reflexivity.
  destruct (redispatch_restarts_deadline 10 env1 env2 fresh_queue 3%nat
              [Enter 0] H0 H1) as [[Hr _] [_ Hpin]].
  split; [exact H0|]. split; [exact H1|]. split; [exact Hr|].
  destruct (Hpin 8 12 [quiet 15] 2%nat []) as [Hsleep _];
    [ reflexivity
    | unfold in_int64, INT64_MIN, INT64_MAX; simpl; lia
    | lia | reflexivity | reflexivity | simpl; lia | simpl; lia | ].
  apply Hsleep. lia.
Defined.

(** ** postMessage and invalidate *)

Lemma update_same (h : store) (p : ptr) (f : MessageBase -> MessageBase) :
  update h p f p = f (h p).
Proof.
  unfold update. now rewrite Nat.eqb_refl.
Qed.

Lemma update_other (h : store) (p q : ptr) (f : MessageBase -> MessageBase) :
  q <> p -> update h p f q = h q.
Proof.
  intros Hq. unfold update.
  destruct (Nat.eqb q p) eqn:E; [|reflexivity].
  apply Nat.eqb_eq in E. contradiction.
Qed.

Lemma queueMessage_when (s s' : state) (m : ptr) (relTime flags now : Z) (st : status_t) :
  queueMessage s (Some m) relTime flags now = Some (st, s') ->
  st = NO_ERROR /\ when (heap s' m) = now + relTime /\
  mInvalidate s' = mInvalidate s /\
  mInvalidateMessage s' = mInvalidateMessage s.
Proof.
  unfold queueMessage. intros [= <- <-]. simpl.
  rewrite update_same. simpl. auto.
Qed.

(** C4 as stated fails.  Message 1 posted at time 10 with delay -5 is
    accepted with [NO_ERROR] and gets [when = 5], before the time of the
    post. *)
Lemma negative_delay_is_not_clamped :
  ~ clamps_or_rejects fresh_queue 1%nat (-5) 0 10.
Proof.
  unfold clamps_or_rejects. simpl. intros H.
  destruct H as [H|H]; [lia | congruence | discriminate].
Qed.

(** C4, amended.  For every message and every delay, negative ones
    included, [postMessage] returns [NO_ERROR] and sets [when] to the clock
    reading plus the delay; with a negative delay that is strictly before the
    clock reading. *)
Theorem post_adds_delay_unclamped :
  forall (s : state) (m : ptr) (relTime flags now : Z),
    relTime < 0 ->
    exists s',
      postMessage s (Some m) relTime flags now = Some (NO_ERROR, s') /\
      when (heap s' m) = now + relTime /\
      when (heap s' m) < now.
Proof.
  intros s m relTime flags now Hneg. unfold postMessage.
  destruct (queueMessage s (Some m) relTime flags now) as [[st s']|] eqn:Hq.
  - destruct (queueMessage_when _ _ _ _ _ _ _ Hq) as [-> [Hw _]].
    exists s'. repeat split; [exact Hw | lia].
  - discriminate.
Qed.

Lemma post_adds_delay_unclamped_witness :
  -5 < 0 /\
  exists s',
    postMessage fresh_queue (Some 1%nat) (-5) 0 10 = Some (NO_ERROR, s') /\
    when (heap s' 1%nat) = 10 + -5 /\
    when (heap s' 1%nat) < 10.
Proof.
  split; [lia|].
  apply (post_adds_delay_unclamped fresh_queue 1%nat (-5) 0 10). lia.
Defined.

(** C10 as stated fails on the null message: [queueMessage] dereferences it
    at once, so the call does not come back with [NO_ERROR]. *)
Lemma post_null_message_does_not_succeed :
  ~ post_succeeds fresh_queue None 0 0 0.
Proof.
  intros [s' H]. discriminate H.
Qed.

(** C10, amended.  For every non-null message, every delay (negative ones
    included) and every flags value, [postMessage] returns [NO_ERROR], and
    [invalidate] always returns [NO_ERROR]; neither ever produces another
    status. *)
Theorem post_and_invalidate_return_NO_ERROR :
  forall (s : state) (m : ptr) (relTime flags now : Z),
    post_succeeds s (Some m) relTime flags now /\
    (forall st s', postMessage s (Some m) relTime flags now = Some (st, s') ->
                   st = NO_ERROR) /\
    fst (invalidate s) = NO_ERROR.
Proof.
  intros s m relTime flags now. split; [|split].
  - unfold post_succeeds, postMessage, queueMessage. eexists. reflexivity.
  - intros st s' H. unfold postMessage in H.
    now apply queueMessage_when in H.
  - reflexivity.
Qed.

(** ** Deliveries *)

(** A pass that finds the latch clear and leaves the loop with a message
    takes the head of the list, which is due, and removes it. *)
Lemma locked_pass_ordinary (timeout timeoutTime now : Z) (s s' : state) (p : ptr) :
  mInvalidate s = false ->
  locked_pass timeout timeoutTime now s = Break (Some p) s' ->
  when (heap s p) <= now /\ heap s' = heap s /\
  exists tl, mMessages s = p :: tl /\ mMessages s' = tl.
Proof.
  intros Hi. unfold locked_pass. rewrite Hi.
  destruct (mMessages s) as [|cur tl]; [discriminate|].
  destruct (when (heap s cur) <=? now) eqn:Hdue.
  - intros [= <- <-]. simpl. apply Z.leb_le in Hdue.
    split; [exact Hdue|]. split; [reflexivity|].
    exists tl. split; reflexivity.
  - destruct ((0 <=? timeout) && (timeoutTime <? now)); discriminate.
Qed.

(** A pass that finds the latch set. *)
Lemma locked_pass_latch_set (timeout timeoutTime now : Z) (s : state) :
  mInvalidate s = true ->
  exists s',
    locked_pass timeout timeoutTime now s = Break (Some (mInvalidateMessage s)) s' /\
    when (heap s' (mInvalidateMessage s)) = now /\
    mInvalidate s' = false /\
    mMessages s' = mMessages s /\
    mInvalidateMessage s' = mInvalidateMessage s /\
    (forall p, p <> mInvalidateMessage s -> heap s' p = heap s p).
Proof.
  intros Hi. unfold locked_pass. rewrite Hi.
  eexists. split; [reflexivity|]. simpl.
  split; [now rewrite update_same|].
  do 3 (split; [reflexivity|]).
  intros p Hp. now apply update_other.
Qed.

(** C5.  When the latch is set at the start of a pass of the locked loop,
    that pass leaves the loop with the invalidate message, whatever the list
    holds: the latch is cleared and the message's [when] is set to the clock
    reading in the same locked step, the list and every other object are
    untouched, and a later pass that delivers from this state delivers the
    head of the unchanged list. *)
Theorem invalidate_preempts_ordinary_messages :
  forall (timeout timeoutTime now : Z) (s : state),
    mInvalidate s = true ->
    exists s',
      locked_pass timeout timeoutTime now s = Break (Some (mInvalidateMessage s)) s' /\
      when (heap s' (mInvalidateMessage s)) = now /\
      mInvalidate s' = false /\
      mMessages s' = mMessages s /\
      mInvalidateMessage s' = mInvalidateMessage s /\
      (forall p, p <> mInvalidateMessage s -> heap s' p = heap s p) /\
      (forall timeout2 timeoutTime2 now2 p s2,
         locked_pass timeout2 timeoutTime2 now2 s' = Break (Some p) s2 ->
         exists tl, mMessages s = p :: tl /\ mMessages s2 = tl).
Proof.
  intros timeout timeoutTime now s Hi.
  destruct (locked_pass_latch_set timeout timeoutTime now s Hi)
    as [s' [Hpass [Hwhen [Hlatch [Hlist [Hinv Hframe]]]]]].
  exists s'. repeat (split; [assumption|]).
  intros timeout2 timeoutTime2 now2 p s2 Hnext.
  apply locked_pass_ordinary in Hnext; [|exact Hlatch].
  destruct Hnext as [_ [_ [tl [Htl Htl2]]]].
  exists tl. rewrite <- Hlist. auto.
Qed.

Lemma invalidate_preempts_ordinary_messages_witness :
  exists s',
    locked_pass 100 100 9
      {| heap := objects; mMessages := [1%nat; 2%nat]; mInvalidate := true;
         mInvalidateMessage := 0%nat |} = Break (Some 0%nat) s' /\
    when (heap s' 0%nat) = 9 /\ mInvalidate s' = false /\
    mMessages s' = [1%nat; 2%nat].
Proof.
  destruct (invalidate_preempts_ordinary_messages 100 100 9
              {| heap := objects; mMessages := [1%nat; 2%nat]; mInvalidate := true;
                 mInvalidateMessage := 0%nat |} eq_refl)
    as [s' [H1 [H2 [H3 [H4 _]]]]].
  exists s'. repeat split; assumption.
Defined.

Lemma invalidate_again (n : nat) (s : state) :
  Nat.iter (S n) (fun x => snd (invalidate x)) s = snd (invalidate s).
Proof.
  induction n as [|n IH].
  - reflexivity.
  - change (Nat.iter (S (S n)) (fun x => snd (invalidate x)) s)
      with (snd (invalidate (Nat.iter (S n) (fun x => snd (invalidate x)) s))).
    rewrite IH. reflexivity.
Qed.

(** C6.  Any number [n >= 1] of [invalidate] calls in a row leaves the
    queue in the state one call leaves it in.  The next pass of the locked
    loop then delivers the invalidate message and clears the latch, and no
    later pass delivers it again unless [invalidate] is called again: a pass
    that delivers takes the head of the list, and with an empty list the
    pass delivers nothing and waits. *)
Theorem invalidate_coalesces :
  forall (n : nat) (s : state) (timeout timeoutTime now : Z),
    (1 <= n)%nat ->
    let sn := Nat.iter n (fun x => snd (invalidate x)) s in
    sn = snd (invalidate s) /\
    exists s1,
      locked_pass timeout timeoutTime now sn = Break (Some (mInvalidateMessage s)) s1 /\
      mInvalidate s1 = false /\
      mMessages s1 = mMessages s /\
      (forall timeout2 timeoutTime2 now2 p s2,
         locked_pass timeout2 timeoutTime2 now2 s1 = Break (Some p) s2 ->
         exists tl, mMessages s = p :: tl) /\
      (mMessages s = [] ->
       forall timeout2 timeoutTime2 now2,
         locked_pass timeout2 timeoutTime2 now2 s1 = Again WaitForever s1).
Proof.
  intros n s timeout timeoutTime now Hn sn.
  assert (Hsn : sn = snd (invalidate s)).
  { subst sn. destruct n as [|n]; [lia|]. apply invalidate_again. }
  split; [exact Hsn|]. rewrite Hsn.
  destruct (locked_pass_latch_set timeout timeoutTime now
              (snd (invalidate s)) eq_refl)
    as [s1 [Hpass [_ [Hlatch [Hlist _]]]]].
  exists s1. simpl in *.
  split; [exact Hpass|]. split; [exact Hlatch|]. split; [exact Hlist|].
  split.
  - intros timeout2 timeoutTime2 now2 p s2 H.
    apply locked_pass_ordinary in H; [|exact Hlatch].
    destruct H as [_ [_ [tl [Htl _]]]]. exists tl. now rewrite <- Hlist.
  - intros Hempty timeout2 timeoutTime2 now2.
    apply locked_pass_empty; [now rewrite Hlist | exact Hlatch].
Qed.

Lemma invalidate_coalesces_witness :
  (1 <= 3)%nat /\
  Nat.iter 3 (fun x => snd (invalidate x)) fresh_queue = snd (invalidate fresh_queue) /\
  exists s1,
    locked_pass 100 100 4 (Nat.iter 3 (fun x => snd (invalidate x)) fresh_queue)
      = Break (Some 0%nat) s1 /\
    mInvalidate s1 = false /\
    locked_pass 20 24 4 s1 = Again WaitForever s1.
Proof.
  split; [lia|].
  destruct (invalidate_coalesces 3 fresh_queue 100 100 4)
    as [Hsame [s1 [Hpass [Hlatch [_ [_ Hwait]]]]]]; [lia|].
  split; [exact Hsame|].
  exists s1. split; [exact Hpass|]. split; [exact Hlatch|].
  apply Hwait. reflexivity.
Defined.

Lemma locked_pass_delivery_due (timeout timeoutTime now : Z) (s s' : state) (p : ptr) :
  locked_pass timeout timeoutTime now s = Break (Some p) s' ->
  when (heap s' p) <= now.
Proof.
  destruct (mInvalidate s) eqn:Hi; intros Hpass.
  - destruct (locked_pass_latch_set timeout timeoutTime now s Hi)
      as [s1 [Hpass1 [Hwhen _]]].
    rewrite Hpass in Hpass1. injection Hpass1 as -> ->. lia.
  - apply locked_pass_ordinary in Hpass; [|exact Hi].
    destruct Hpass as [Hdue [-> _]]. exact Hdue.
Qed.

(** A message that [waitMessage] returns was due at one of the clock
    readings of the call. *)
Lemma returned_message_is_due (timeout : Z) (env : list tick) :
  forall (at_ : position) (s : state) (p : ptr),
    result (exec timeout env at_ s) = Returned (Some p) ->
    exists tk, In tk env /\ when (heap (final (exec timeout env at_ s)) p) <= time tk.
Proof.
  induction env as [|tk env IH]; intros at_ s p; simpl.
  - discriminate.
  - destruct at_ as [|timeoutTime]; simpl.
    + intros H. destruct (IH _ _ _ H) as [tk' [Hin Hle]]. exists tk'. auto.
    + destruct (locked_pass timeout timeoutTime (time tk)
                  (fold_left producer (producers tk) s)) as [[q|] s1|w s1] eqn:Hp.
      * destruct (handler (heap s1 q)); simpl.
        -- intros H. destruct (IH _ _ _ H) as [tk' [Hin Hle]]. exists tk'. auto.
        -- intros [= <-]. exists tk. split; [now left|].
           now apply locked_pass_delivery_due in Hp.
      * discriminate.
      * simpl. intros H. destruct (IH _ _ _ H) as [tk' [Hin Hle]]. exists tk'. auto.
Qed.

(** A message is posted at time 0 for time 50, [invalidate] is called
    while the consumer sleeps, and the consumer wakes at time 10: the first
    call returns the invalidate message stamped 10 and leaves the list alone,
    the second call sleeps until 50 and returns the posted message. *)
Example invalidate_then_message :
  let r1 := waitMessage 1000
              [ {| producers := [PostMessage 1%nat 50 0 0]; time := 0 |};
                quiet 0;
                {| producers := [Invalidate]; time := 10 |} ] fresh_queue in
  let r2 := waitMessage 1000 [quiet 10; quiet 10; quiet 50] (final r1) in
  result r1 = Returned (Some 0%nat) /\
  trace r1 = [Enter 0; Wait (WaitUntil 50); Handler 0%nat false] /\
  when (heap (final r1) 0%nat) = 10 /\
  mMessages (final r1) = [1%nat] /\
  result r2 = Returned (Some 1%nat) /\
  trace r2 = [Enter 10; Wait (WaitUntil 50); Handler 1%nat false] /\
  mMessages (final r2) = [].
Proof. repeat split. Qed.

(** ** Re-dispatch *)





(** * Further properties of the code *)

(** ** MessageList::insert and MessageList::remove *)

Lemma insert_sorted_permutation (h : store) (node : ptr) (l : list ptr) :
  Permutation (insert_sorted h node l) (node :: l).
Proof.
  induction l as [|e l IH]; simpl.
  - apply Permutation_refl.
  - destruct (MessageBase_lt (h node) (h e)).
    + apply Permutation_refl.
    + apply perm_trans with (e :: node :: l).
      * now apply perm_skip.
      * apply perm_swap.
Qed.

Lemma MessageList_insert_perm (h : store) (node : ptr) (l : list ptr) :
  Permutation (MessageList_insert h node l) (node :: l).
Proof.
  rewrite MessageList_insert_unfold.
  destruct (existsb (is_later h node) l).
  - apply insert_sorted_permutation.
  - apply Permutation_refl.
Qed.

(** [MessageList::insert] adds the node and nothing else: the new list has
    the same messages as the old one plus the node, each as often as
    before, so no message is lost or duplicated and the list is one longer. *)
Theorem MessageList_insert_adds_exactly_the_node :
  forall (h : store) (node : ptr) (l : list ptr),
    Permutation (MessageList_insert h node l) (node :: l) /\
    length (MessageList_insert h node l) = S (length l).
Proof.
  intros h node l. split.
  - apply MessageList_insert_perm.
  - apply (Permutation_length (MessageList_insert_perm h node l)).
Qed.

Lemma insert_sorted_erase (h : store) (node : ptr) (l : list ptr) :
  exists pos : LIST.iterator,
    (pos <= length l)%nat /\
    nth_error (insert_sorted h node l) pos = Some node /\
    LIST.erase (insert_sorted h node l) pos = l.
Proof.
  induction l as [|e l IH]; simpl.
  - exists 0%nat. repeat split. lia.
  - destruct (MessageBase_lt (h node) (h e)).
    + exists 0%nat. repeat split. lia.
    + destruct IH as [pos [Hle [Hnth Her]]].
      exists (S pos). split; [lia|]. split; [exact Hnth|].
      unfold LIST.erase in *.
      change (e :: (firstn pos (insert_sorted h node l)
                    ++ skipn (S pos) (insert_sorted h node l)) = e :: l).
      now rewrite Her.
Qed.

(** Insert, then remove: the node sits at some position of the new list,
    and [MessageList::remove] at that position gives back the list as it was
    before, so the messages already queued keep their relative order. *)
Theorem MessageList_insert_then_remove :
  forall (h : store) (node : ptr) (l : list ptr),
    exists pos : LIST.iterator,
      (pos <= length l)%nat /\
      nth_error (MessageList_insert h node l) pos = Some node /\
      MessageList_remove (MessageList_insert h node l) pos = l.
Proof.
  intros h node l. unfold MessageList_remove.
  rewrite MessageList_insert_unfold.
  destruct (existsb (is_later h node) l).
  - apply insert_sorted_erase.
  - exists 0%nat. repeat split. lia.
Qed.

Lemma insert_sorted_keeps_sorted (h : store) (node : ptr) (l : list ptr) :
  sorted_by_when h l -> sorted_by_when h (insert_sorted h node l).
Proof.
  intros Hs. pose proof (insert_at_end_keeps_sorted h node l Hs) as H.
  unfold LIST.begin in H.
  pose proof (insert_loop_at_end_unfold h node l []) as E. simpl in E.
  now rewrite E in H.
Qed.

(** When some queued message is strictly later than the node, the node goes
    immediately in front of the first such message, behind every message
    that is not later than it (equal times included), and a sorted list
    stays sorted. *)
Theorem MessageList_insert_before_later_message :
  forall (h : store) (node : ptr) (l1 l2 : list ptr) (e : ptr),
    (forall x, In x l1 -> when (h x) <= when (h node)) ->
    when (h node) < when (h e) ->
    MessageList_insert h node (l1 ++ e :: l2) = l1 ++ node :: e :: l2 /\
    (sorted_by_when h (l1 ++ e :: l2) ->
     sorted_by_when h (MessageList_insert h node (l1 ++ e :: l2))).
Proof.
  intros h node l1 l2 e Hl1 He. split.
  - now apply insert_before_first_later.
  - intros Hs. rewrite MessageList_insert_unfold.
    assert (Hex : existsb (is_later h node) (l1 ++ e :: l2) = true).
    { apply existsb_exists. exists e. split.
      - apply in_or_app. right. now left.
      - unfold is_later, MessageBase_lt. now apply Z.ltb_lt. }
    rewrite Hex. now apply insert_sorted_keeps_sorted.
Qed.

Lemma MessageList_insert_before_later_message_witness :
  when (objects 1%nat) < when (objects 2%nat) /\
  MessageList_insert objects 1%nat [3%nat; 2%nat] = [3%nat; 1%nat; 2%nat] /\
  sorted_by_when objects (MessageList_insert objects 1%nat [3%nat; 2%nat]).
Proof.
  assert (H1 : forall x, In x [3%nat] -> when (objects x) <= when (objects 1%nat)).
  { intros x [<-|[]]. simpl. lia. }
  assert (H2 : when (objects 1%nat) < when (objects 2%nat)) by (simpl; lia).
  destruct (MessageList_insert_before_later_message objects 1%nat [3%nat] []
              2%nat H1 H2) as [Heq Hsorted].
  split; [exact H2|]. split; [exact Heq|].
  apply Hsorted. unfold sorted_by_when.
  repeat constructor; simpl; lia.
Defined.

(** ** postMessage, invalidate and the producers *)

Lemma queueMessage_effect (s : state) (m : ptr) (relTime flags now : Z) :
  exists s',
    queueMessage s (Some m) relTime flags now = Some (NO_ERROR, s') /\
    heap s' = update (heap s) m (set_when (now + relTime)) /\
    mMessages s' = MessageList_insert (heap s') m (mMessages s) /\
    mInvalidate s' = mInvalidate s /\
    mInvalidateMessage s' = mInvalidateMessage s.
Proof.
  eexists. split; [reflexivity|]. simpl. auto.
Qed.

(** [postMessage] of a non-null message changes one field of one object,
    the [when] of the message, which becomes the clock reading plus the
    delay (the sum being representable in 64 bits, so that the machine sum is
    the exact one); [what] and [handler] of the message and every other
    object are as before, the latch and the invalidate message are
    untouched, and the list gains the message once (also when it was queued
    already: a message posted twice is queued twice, both entries showing the
    new [when]). *)
Theorem postMessage_frame :
  forall (s : state) (m : ptr) (relTime flags now : Z),
    in_int64 (now + relTime) ->
    exists s',
      postMessage s (Some m) relTime flags now = Some (NO_ERROR, s') /\
      when (heap s' m) = now + relTime /\
      when (heap s' m) = int64_add now relTime /\
      what (heap s' m) = what (heap s m) /\
      handler (heap s' m) = handler (heap s m) /\
      (forall p, p <> m -> heap s' p = heap s p) /\
      Permutation (mMessages s') (m :: mMessages s) /\
      mInvalidate s' = mInvalidate s /\
      mInvalidateMessage s' = mInvalidateMessage s.
Proof.
  intros s m relTime flags now Hrange. unfold postMessage.
  destruct (queueMessage_effect s m relTime flags now)
    as [s' [Hq [Hh [Hl [Hi Hm]]]]].
  exists s'. split; [exact Hq|].
  rewrite Hh. rewrite !update_same. simpl.
  repeat split; try assumption.
  - symmetry. now apply int64_add_exact.
  - intros p Hp. now apply update_other.
  - rewrite Hl. apply MessageList_insert_perm.
Qed.

Lemma postMessage_frame_witness :
  in_int64 (1 + 5) /\
  exists s',
    postMessage fresh_queue (Some 1%nat) 5 0 1 = Some (NO_ERROR, s') /\
    when (heap s' 1%nat) = 1 + 5 /\
    mMessages s' = [1%nat].
Proof.
  assert (H : in_int64 (1 + 5)).
  { unfold in_int64, INT64_MIN, INT64_MAX. simpl. lia. }
  split; [exact H|].
  destruct (postMessage_frame fresh_queue 1%nat 5 0 1 H)
    as [s' [Hpost [Hw _]]].
  exists s'. split; [exact Hpost|]. split; [exact Hw|].
  injection Hpost as <-. reflexivity.
Defined.

Lemma producer_effect (s : state) (c : call) :
  Permutation (mMessages (producer s c)) (posted [c] ++ mMessages s) /\
  (mInvalidate (producer s c) = true <-> mInvalidate s = true \/ c = Invalidate) /\
  mInvalidateMessage (producer s c) = mInvalidateMessage s /\
  (forall p, what (heap (producer s c) p) = what (heap s p) /\
             handler (heap (producer s c) p) = handler (heap s p)).
Proof.
  destruct c as [m relTime flags t|].
  - destruct (queueMessage_effect s m relTime flags t)
      as [s' [Hq [Hh [Hl [Hi Hm]]]]].
    unfold producer, postMessage. rewrite Hq.
    split; [rewrite Hl; apply MessageList_insert_perm|].
    split.
    { rewrite Hi. split; [auto|]. intros [H|H]; [exact H | discriminate]. }
    split; [exact Hm|].
    intros p. rewrite Hh. unfold update.
    destruct (Nat.eqb p m); simpl; auto.
  - simpl. split; [apply Permutation_refl|].
    split; [split; auto|]. split; [reflexivity|]. auto.
Qed.

Lemma producers_effect (cs : list call) :
  forall (s : state),
    Permutation (mMessages (fold_left producer cs s)) (posted cs ++ mMessages s) /\
    (mInvalidate (fold_left producer cs s) = true <->
     mInvalidate s = true \/ In Invalidate cs) /\
    mInvalidateMessage (fold_left producer cs s) = mInvalidateMessage s /\
    (forall p, what (heap (fold_left producer cs s) p) = what (heap s p) /\
               handler (heap (fold_left producer cs s) p) = handler (heap s p)).
Proof.
  induction cs as [|c cs IH]; intros s; simpl fold_left.
  - simpl. split; [apply Permutation_refl|].
    split; [tauto|]. auto.
  - destruct (IH (producer s c)) as [Hl [Hi [Hm Hf]]].
    destruct (producer_effect s c) as [Hl1 [Hi1 [Hm1 Hf1]]].
    split.
    { eapply perm_trans; [exact Hl|].
      destruct c as [m relTime flags t|]; simpl in *.
      - apply perm_trans with (posted cs ++ m :: mMessages s).
        + now apply Permutation_app_head.
        + apply Permutation_sym, Permutation_middle.
      - now apply Permutation_app_head. }
    split.
    { rewrite Hi, Hi1. simpl. split.
      - intros [[H|H]|H]; auto.
      - intros [H|[H|H]]; auto. }
    split; [now rewrite Hm|].
    intros p. destruct (Hf p) as [Hw Hh]. destruct (Hf1 p) as [Hw1 Hh1].
    split; congruence.
Qed.

(** Whatever calls the producers make, the list afterwards holds the
    messages it held before plus the posted ones, each as often as it was
    posted; the latch is set exactly when it was set before or [invalidate]
    was called; the invalidate message is the same object; and no object's
    [what] or [handler] has changed. *)
Theorem producers_only_add :
  forall (cs : list call) (s : state),
    Permutation (mMessages (fold_left producer cs s)) (posted cs ++ mMessages s) /\
    (mInvalidate (fold_left producer cs s) = true <->
     mInvalidate s = true \/ In Invalidate cs) /\
    mInvalidateMessage (fold_left producer cs s) = mInvalidateMessage s /\
    (forall p, what (heap (fold_left producer cs s) p) = what (heap s p) /\
               handler (heap (fold_left producer cs s) p) = handler (heap s p)).
Proof.
  intros cs s. apply producers_effect.
Qed.

Lemma insert_goes_first_when_latest (h : store) (node : ptr) (l : list ptr) :
  (forall e, In e l -> when (h e) <= when (h node)) ->
  MessageList_insert h node l = node :: l.
Proof.
  intros Hall. rewrite MessageList_insert_unfold.
  destruct (existsb (is_later h node) l) eqn:Hex; [|reflexivity].
  apply existsb_exists in Hex. destruct Hex as [c [Hc Hlt]].
  unfold is_later, MessageBase_lt in Hlt. apply Z.ltb_lt in Hlt.
  specialize (Hall c Hc). lia.
Qed.

(** A message posted for a time (clock reading plus delay, representable
    in 64 bits) that no other queued message is strictly later than becomes
    the head of the list, in front of the messages queued before it; as the
    locked loop looks at the head only, no pass delivers anything before
    that time, also when messages behind the head are due. *)
Theorem latest_post_goes_to_head :
  forall (s : state) (m : ptr) (relTime flags now : Z),
    in_int64 (now + relTime) ->
    mInvalidate s = false ->
    (forall e, In e (mMessages s) -> e <> m -> when (heap s e) <= now + relTime) ->
    exists s',
      postMessage s (Some m) relTime flags now = Some (NO_ERROR, s') /\
      mMessages s' = m :: mMessages s /\
      (forall timeout timeoutTime t p s2,
         t < now + relTime ->
         locked_pass timeout timeoutTime t s' <> Break (Some p) s2).
Proof.
  intros s m relTime flags now _ Hi Hall. unfold postMessage.
  destruct (queueMessage_effect s m relTime flags now)
    as [s' [Hq [Hh [Hl [Hi' Hm]]]]].
  exists s'. split; [exact Hq|].
  assert (Hw : when (heap s' m) = now + relTime).
  { rewrite Hh, update_same. reflexivity. }
  assert (Hhead : mMessages s' = m :: mMessages s).
  { rewrite Hl. apply insert_goes_first_when_latest.
    intros e He. rewrite Hw. destruct (Nat.eq_dec e m) as [->|Hne].
    - rewrite Hw. lia.
    - rewrite Hh, update_other by exact Hne. now apply Hall. }
  split; [exact Hhead|].
  intros timeout timeoutTime t p s2 Ht Hpass.
  apply locked_pass_ordinary in Hpass; [|congruence].
  destruct Hpass as [Hdue [_ [tl [Htl _]]]].
  rewrite Hhead in Htl. injection Htl as <- _. lia.
Qed.

Lemma latest_post_goes_to_head_witness :
  exists s',
    postMessage {| heap := objects; mMessages := [1%nat]; mInvalidate := false;
                   mInvalidateMessage := 0%nat |} (Some 2%nat) 100 0 0
      = Some (NO_ERROR, s') /\
    mMessages s' = [2%nat; 1%nat] /\
    when (heap s' 1%nat) = 5 /\
    (forall p s2, locked_pass 1000 1000 10 s' <> Break (Some p) s2).
Proof.
  assert (Hrange : in_int64 (0 + 100)).
  { unfold in_int64, INT64_MIN, INT64_MAX. simpl. lia. }
  destruct (latest_post_goes_to_head
              {| heap := objects; mMessages := [1%nat]; mInvalidate := false;
                 mInvalidateMessage := 0%nat |} 2%nat 100 0 0 Hrange eq_refl)
    as [s' [Hpost [Hlist Hblock]]].
  - intros e [<-|[]] _. simpl. lia.
  - exists s'. split; [exact Hpost|]. split; [exact Hlist|].
    split.
    + injection Hpost as <-. reflexivity.
    + intros p s2. apply Hblock. lia.
Defined.

(** Posting to an empty queue and delivering: after [postMessage] on an
    empty list the list holds the message alone; with the latch clear, every
    pass at or after the message's time (clock reading plus delay,
    representable in 64 bits) delivers it and leaves the list empty again,
    and every earlier pass delivers nothing. *)
Theorem post_then_deliver_on_empty_queue :
  forall (s : state) (m : ptr) (relTime flags now : Z),
    in_int64 (now + relTime) ->
    mMessages s = [] -> mInvalidate s = false ->
    exists s',
      postMessage s (Some m) relTime flags now = Some (NO_ERROR, s') /\
      mMessages s' = [m] /\
      (forall timeout timeoutTime t,
         now + relTime <= t ->
         exists s2, locked_pass timeout timeoutTime t s' = Break (Some m) s2 /\
                    mMessages s2 = [] /\ heap s2 = heap s') /\
      (forall timeout timeoutTime t p s2,
         t < now + relTime ->
         locked_pass timeout timeoutTime t s' <> Break (Some p) s2).
Proof.
  intros s m relTime flags now _ Hl Hi. unfold postMessage.
  destruct (queueMessage_effect s m relTime flags now)
    as [s' [Hq [Hh [Hl' [Hi' Hm]]]]].
  exists s'. split; [exact Hq|].
  assert (Hw : when (heap s' m) = now + relTime).
  { rewrite Hh, update_same. reflexivity. }
  assert (Hlist : mMessages s' = [m]).
  { rewrite Hl', Hl. reflexivity. }
  split; [exact Hlist|]. split.
  - intros timeout timeoutTime t Ht. unfold locked_pass.
    rewrite Hi', Hi, Hlist, Hw.
    replace (now + relTime <=? t) with true by (symmetry; now apply Z.leb_le).
    eexists. split; [reflexivity|]. split; reflexivity.
  - intros timeout timeoutTime t p s2 Ht Hpass.
    apply locked_pass_ordinary in Hpass; [|congruence].
    destruct Hpass as [Hdue [_ [tl [Htl _]]]].
    rewrite Hlist in Htl. injection Htl as <- _. lia.
Qed.

Lemma post_then_deliver_on_empty_queue_witness :
  exists s' s2,
    postMessage fresh_queue (Some 1%nat) 5 0 1 = Some (NO_ERROR, s') /\
    mMessages s' = [1%nat] /\
    locked_pass 100 101 6 s' = Break (Some 1%nat) s2 /\
    mMessages s2 = [].
Proof.
  assert (Hrange : in_int64 (1 + 5)).
  { unfold in_int64, INT64_MIN, INT64_MAX. simpl. lia. }
  destruct (post_then_deliver_on_empty_queue fresh_queue 1%nat 5 0 1
              Hrange eq_refl eq_refl) as [s' [Hpost [Hlist [Hdeliver _]]]].
  destruct (Hdeliver 100 101 6) as [s2 [Hpass [Hempty _]]]; [lia|].
  exists s', s2. auto.
Defined.

(** ** One pass of the locked loop *)

(** A pass reports a timeout exactly when the latch is clear, the timeout is
    not negative, the list has a head that is not due, and the clock reading
    is strictly past the deadline; the state is left as it was.  In
    particular no timeout is reported on an empty list, with a negative
    timeout, or while the latch is set. *)
Theorem locked_pass_times_out_iff :
  forall (timeout timeoutTime now : Z) (s s' : state),
    locked_pass timeout timeoutTime now s = Break None s' <->
    s' = s /\ mInvalidate s = false /\ 0 <= timeout /\ timeoutTime < now /\
    exists cur tl, mMessages s = cur :: tl /\ now < when (heap s cur).
Proof.
  intros timeout timeoutTime now s s'. unfold locked_pass. split.
  - destruct (mInvalidate s); [discriminate|].
    destruct (mMessages s) as [|cur tl]; [discriminate|].
    destruct (when (heap s cur) <=? now) eqn:Hdue; [discriminate|].
    destruct (0 <=? timeout) eqn:Ht; simpl; [|discriminate].
    destruct (timeoutTime <? now) eqn:Hpast; [|discriminate].
    intros [= <-]. apply Z.leb_gt in Hdue. apply Z.leb_le in Ht.
    apply Z.ltb_lt in Hpast.
    repeat split; try assumption. exists cur, tl. auto.
  - intros [-> [Hi [Ht [Hpast [cur [tl [Hl Hdue]]]]]]].
    rewrite Hi, Hl.
    replace (when (heap s cur) <=? now) with false
      by (symmetry; apply Z.leb_gt; lia).
    replace (0 <=? timeout) with true by (symmetry; apply Z.leb_le; lia).
    replace (timeoutTime <? now) with true by (symmetry; apply Z.ltb_lt; lia).
    reflexivity.
Qed.

Lemma due_message_pass (timeout timeoutTime now : Z) (s : state) (cur : ptr)
    (tl : list ptr) :
  mInvalidate s = false -> mMessages s = cur :: tl ->
  when (heap s cur) <= now ->
  exists s',
    locked_pass timeout timeoutTime now s = Break (Some cur) s' /\
    mMessages s' = tl /\ heap s' = heap s /\ mInvalidate s' = false /\
    mInvalidateMessage s' = mInvalidateMessage s.
Proof.
  intros Hi Hl Hdue. unfold locked_pass. rewrite Hi, Hl.
  replace (when (heap s cur) <=? now) with true by (symmetry; now apply Z.leb_le).
  eexists. split; [reflexivity|]. simpl. auto.
Qed.

(** A due head is delivered whatever the timeout: with the latch clear and
    the head's [when] not after the clock reading, the pass delivers the head
    and removes it from the list, also when the deadline has passed; the
    objects are not touched. *)
Theorem due_message_beats_timeout :
  forall (timeout timeoutTime now : Z) (s : state) (cur : ptr) (tl : list ptr),
    mInvalidate s = false -> mMessages s = cur :: tl ->
    when (heap s cur) <= now ->
    exists s',
      locked_pass timeout timeoutTime now s = Break (Some cur) s' /\
      mMessages s' = tl /\ heap s' = heap s /\ mInvalidate s' = false /\
      mInvalidateMessage s' = mInvalidateMessage s.
Proof.
  intros timeout timeoutTime now s cur tl. apply due_message_pass.
Qed.

Lemma due_message_beats_timeout_witness :
  exists s',
    locked_pass 10 10 1000
      {| heap := objects; mMessages := [1%nat; 2%nat]; mInvalidate := false;
         mInvalidateMessage := 0%nat |} = Break (Some 1%nat) s' /\
    mMessages s' = [2%nat].
Proof.
  destruct (due_message_beats_timeout 10 10 1000
              {| heap := objects; mMessages := [1%nat; 2%nat];
                 mInvalidate := false; mInvalidateMessage := 0%nat |}
              1%nat [2%nat] eq_refl eq_refl) as [s' [Hpass [Hlist _]]].
  - simpl. lia.
  - exists s'. auto.
Defined.

(** How long a pass sleeps when the head is not due (latch clear, head's
    [when] positive and after the clock reading): with a negative timeout
    until the head's [when]; with a timeout that is not negative, a positive
    deadline and a clock reading not past it, until the earlier of the
    head's [when] and the deadline.  The state is left as it was. *)
Theorem sleep_until_head_or_deadline :
  forall (timeout timeoutTime now : Z) (s : state) (cur : ptr) (tl : list ptr),
    mInvalidate s = false -> mMessages s = cur :: tl ->
    now < when (heap s cur) -> 0 < when (heap s cur) ->
    (timeout < 0 ->
     locked_pass timeout timeoutTime now s = Again (WaitUntil (when (heap s cur))) s) /\
    (0 <= timeout -> 0 < timeoutTime -> now <= timeoutTime ->
     locked_pass timeout timeoutTime now s =
     Again (WaitUntil (Z.min (when (heap s cur)) timeoutTime)) s).
Proof.
  intros timeout timeoutTime now s cur tl Hi Hl Hdue Hpos.
  unfold locked_pass. rewrite Hi, Hl.
  replace (when (heap s cur) <=? now) with false
    by (symmetry; apply Z.leb_gt; lia).
  unfold choose_wait. split.
  - intros Hneg.
    replace (0 <=? timeout) with false by (symmetry; apply Z.leb_gt; lia).
    simpl.
    replace (0 <=? when (heap s cur)) with true by (symmetry; apply Z.leb_le; lia).
    replace (0 <? when (heap s cur)) with true by (symmetry; apply Z.ltb_lt; lia).
    reflexivity.
  - intros Ht Hdl Hnot.
    replace (0 <=? timeout) with true by (symmetry; apply Z.leb_le; lia).
    replace (timeoutTime <? now) with false by (symmetry; apply Z.ltb_ge; lia).
    replace (0 <? when (heap s cur)) with true by (symmetry; apply Z.ltb_lt; lia).
    simpl.
    destruct (timeoutTime <? when (heap s cur)) eqn:Hcl.
    + apply Z.ltb_lt in Hcl.
      replace (0 <=? timeoutTime) with true by (symmetry; apply Z.leb_le; lia).
      replace (0 <? timeoutTime) with true by (symmetry; apply Z.ltb_lt; lia).
      now rewrite Z.min_r by lia.
    + apply Z.ltb_ge in Hcl.
      replace (0 <=? when (heap s cur)) with true by (symmetry; apply Z.leb_le; lia).
      replace (0 <? when (heap s cur)) with true by (symmetry; apply Z.ltb_lt; lia).
      now rewrite Z.min_l by lia.
Qed.

Lemma sleep_until_head_or_deadline_witness :
  locked_pass (-1) (-1) 1
    {| heap := objects; mMessages := [2%nat]; mInvalidate := false;
       mInvalidateMessage := 0%nat |}
  = Again (WaitUntil 7)
      {| heap := objects; mMessages := [2%nat]; mInvalidate := false;
         mInvalidateMessage := 0%nat |} /\
  locked_pass 3 4 1
    {| heap := objects; mMessages := [2%nat]; mInvalidate := false;
       mInvalidateMessage := 0%nat |}
  = Again (WaitUntil (Z.min 7 4))
      {| heap := objects; mMessages := [2%nat]; mInvalidate := false;
         mInvalidateMessage := 0%nat |}.
Proof.
  split.
  - apply (sleep_until_head_or_deadline (-1) (-1) 1
             {| heap := objects; mMessages := [2%nat]; mInvalidate := false;
                mInvalidateMessage := 0%nat |} 2%nat []);
      try reflexivity; simpl; lia.
  - apply (sleep_until_head_or_deadline 3 4 1
             {| heap := objects; mMessages := [2%nat]; mInvalidate := false;
                mInvalidateMessage := 0%nat |} 2%nat []);
      try reflexivity; simpl; lia.
Defined.

(** ** Whole calls of waitMessage *)

Lemma locked_pass_timed_out (timeout timeoutTime now : Z) (s s' : state) :
  locked_pass timeout timeoutTime now s = Break None s' ->
  s' = s /\ 0 <= timeout /\ timeoutTime < now.
Proof.
  unfold locked_pass.
  destruct (mInvalidate s); [discriminate|].
  destruct (mMessages s) as [|cur tl]; [discriminate|].
  destruct (when (heap s cur) <=? now); [discriminate|].
  destruct (0 <=? timeout) eqn:Ht; simpl; [|discriminate].
  destruct (timeoutTime <? now) eqn:Hpast; [|discriminate].
  intros [= <-]. apply Z.leb_le in Ht. apply Z.ltb_lt in Hpast. auto.
Qed.

Lemma exec_timeout_not_early (timeout b : Z) (env : list tick) :
  Forall (fun tk => b <= time tk) env ->
  forall (at_ : position) (s : state),
    match at_ with
    | Outer => True
    | Inner timeoutTime => b + timeout <= timeoutTime
    end ->
    result (exec timeout env at_ s) = Returned None ->
    exists tk, In tk env /\ b + timeout < time tk.
Proof.
  induction 1 as [|tk env Htk Henv IH]; intros at_ s Hat; simpl.
  - discriminate.
  - destruct at_ as [|timeoutTime]; simpl.
    + intros Hr. apply IH in Hr; [|lia].
      destruct Hr as [tk' [Hin Hlt]]. exists tk'. auto.
    + destruct (locked_pass timeout timeoutTime (time tk)
                  (fold_left producer (producers tk) s)) as [[p|] s1|w s1] eqn:Hp.
      * destruct (handler (heap s1 p)); simpl; [|discriminate].
        intros Hr. apply IH in Hr; [|exact I].
        destruct Hr as [tk' [Hin Hlt]]. exists tk'. auto.
      * intros _. apply locked_pass_timed_out in Hp.
        exists tk. split; [now left | lia].
      * simpl. intros Hr. apply IH in Hr; [|exact Hat].
        destruct Hr as [tk' [Hin Hlt]]. exists tk'. auto.
Qed.

(** A timeout is never reported early: when the clock never reads less than
    it did at entry, every clock reading plus the timeout is representable
    in 64 bits, and [waitMessage] returns nothing, one of the later clock
    readings of the call is more than the timeout after the reading at
    entry.  Producers may post and invalidate at any point of the call. *)
Theorem timeout_is_not_reported_early :
  forall (timeout : Z) (tk0 : tick) (env : list tick) (s : state),
    Forall (fun tk => in_int64 (time tk + timeout)) (tk0 :: env) ->
    Forall (fun tk => time tk0 <= time tk) env ->
    result (waitMessage timeout (tk0 :: env) s) = Returned None ->
    exists tk, In tk env /\ time tk0 + timeout < time tk.
Proof.
  intros timeout tk0 env s _ Hmono. unfold waitMessage. simpl.
  apply (exec_timeout_not_early timeout (time tk0) env Hmono). lia.
Qed.

Lemma timeout_is_not_reported_early_witness :
  result (waitMessage 20
            [ {| producers := [PostMessage 1%nat 50 0 0]; time := 0 |};
              quiet 0; quiet 21 ] fresh_queue) = Returned None /\
  exists tk, In tk [quiet 0; quiet 21] /\ 0 + 20 < time tk.
Proof.
  split; [reflexivity|].
  apply (timeout_is_not_reported_early 20
           {| producers := [PostMessage 1%nat 50 0 0]; time := 0 |}
           [quiet 0; quiet 21] fresh_queue).
  - repeat (apply Forall_cons;
            [unfold in_int64, INT64_MIN, INT64_MAX; simpl; lia|]).
    apply Forall_nil.
  - repeat constructor; simpl; lia.
  - reflexivity.
Defined.

Lemma locked_pass_pending (timeout timeoutTime now : Z) (s : state) :
  match locked_pass timeout timeoutTime now s with
  | Break (Some p) s' => pending s = p :: pending s'
  | Break None s' => s' = s
  | Again _ s' => s' = s
  end.
Proof.
  unfold locked_pass, pending.
  destruct (mInvalidate s) eqn:Hi; simpl.
  - reflexivity.
  - destruct (mMessages s) as [|cur tl] eqn:Hl.
    + reflexivity.
    + destruct (when (heap s cur) <=? now).
      * reflexivity.
      * destruct ((0 <=? timeout) && (timeoutTime <? now)); reflexivity.
Qed.

Lemma exec_quiet_dispatches_pending (timeout : Z) (times : list Z) :
  forall (at_ : position) (s : state),
    dispatched (trace (exec timeout (map quiet times) at_ s))
      ++ pending (final (exec timeout (map quiet times) at_ s)) = pending s.
Proof.
  induction times as [|t times IH]; intros at_ s; simpl.
  - reflexivity.
  - destruct at_ as [|timeoutTime]; simpl.
    + apply IH.
    + pose proof (locked_pass_pending timeout timeoutTime t s) as Hp.
      destruct (locked_pass timeout timeoutTime t s) as [[p|] s1|w s1].
      * destruct (handler (heap s1 p)); simpl.
        -- rewrite IH. now rewrite Hp.
        -- now rewrite Hp.
      * simpl. now rewrite Hp.
      * simpl. rewrite IH. now rewrite Hp.
Qed.

(** While no producer calls the queue, a call of [waitMessage] dispatches
    from the front: the messages whose handlers it ran, in the order it ran
    them, followed by what is still to be delivered when it returns (or is
    left waiting), are exactly what was to be delivered at entry, the
    invalidate message first when the latch was set and then the list in
    list order.  Nothing is skipped, repeated or reordered. *)
Theorem quiet_call_dispatches_in_list_order :
  forall (timeout : Z) (times : list Z) (s : state),
    let r := waitMessage timeout (map quiet times) s in
    dispatched (trace r) ++ pending (final r) = pending s.
Proof.
  intros timeout times s. apply exec_quiet_dispatches_pending.
Qed.

(** A pending invalidate is served at once: when the latch is set and the
    invalidate message's handler returns false (as the handler of the base
    class does), [waitMessage] returns the invalidate message on its first
    pass, for every timeout and whatever the list holds; the message is
    stamped with the clock reading of that pass and the list is as it was. *)
Theorem pending_invalidate_is_returned_at_once :
  forall (timeout t0 t1 : Z) (rest : list tick) (s : state),
    mInvalidate s = true ->
    handler (heap s (mInvalidateMessage s)) = false ->
    let r := waitMessage timeout (quiet t0 :: quiet t1 :: rest) s in
    result r = Returned (Some (mInvalidateMessage s)) /\
    trace r = [Enter t0; Handler (mInvalidateMessage s) false] /\
    when (heap (final r) (mInvalidateMessage s)) = t1 /\
    mMessages (final r) = mMessages s /\
    mInvalidate (final r) = false.
Proof.
  intros timeout t0 t1 rest s Hi Hh r. subst r.
  unfold waitMessage. simpl. unfold locked_pass. rewrite Hi. simpl.
  rewrite update_same. simpl. rewrite Hh. simpl.
  rewrite update_same. simpl. auto.
Qed.

Lemma pending_invalidate_is_returned_at_once_witness :
  let s := {| heap := objects; mMessages := [1%nat; 2%nat]; mInvalidate := true;
              mInvalidateMessage := 0%nat |} in
  result (waitMessage 0 [quiet 3; quiet 4] s) = Returned (Some 0%nat) /\
  when (heap (final (waitMessage 0 [quiet 3; quiet 4] s)) 0%nat) = 4 /\
  mMessages (final (waitMessage 0 [quiet 3; quiet 4] s)) = [1%nat; 2%nat].
Proof.
  intros s.
  destruct (pending_invalidate_is_returned_at_once 0 3 4 [] s eq_refl eq_refl)
    as [Hr [_ [Hw [Hl _]]]].
  split; [exact Hr|]. split; [exact Hw | exact Hl].
Defined.

(** A message that [waitMessage] returns was due during the call: its [when]
    at the return is not after one of the clock readings the call took.
    This holds for the invalidate message as for an ordinary one, and
    whatever the producers did during the call. *)
Theorem returned_message_was_due :
  forall (timeout : Z) (env : list tick) (s : state) (p : ptr),
    result (waitMessage timeout env s) = Returned (Some p) ->
    exists tk, In tk env /\
               when (heap (final (waitMessage timeout env s)) p) <= time tk.
Proof.
  intros timeout env s p. unfold waitMessage. apply returned_message_is_due.
Qed.

Lemma returned_message_was_due_witness :
  result (waitMessage 10 redispatch_env fresh_queue) = Returned (Some 2%nat) /\
  exists tk, In tk redispatch_env /\
             when (heap (final (waitMessage 10 redispatch_env fresh_queue)) 2%nat)
             <= time tk.
Proof.
  split; [reflexivity|].
  apply (returned_message_was_due 10 redispatch_env fresh_queue 2%nat).
  reflexivity.
Defined.

Lemma locked_pass_keeps_fields (timeout timeoutTime now : Z) (s : state) :
  forall r s',
    (locked_pass timeout timeoutTime now s = Break r s' \/
     exists w, locked_pass timeout timeoutTime now s = Again w s') ->
    mInvalidateMessage s' = mInvalidateMessage s /\
    (forall p, what (heap s' p) = what (heap s p) /\
               handler (heap s' p) = handler (heap s p)) /\
    (forall p, p <> mInvalidateMessage s -> heap s' p = heap s p).
Proof.
  intros r s'. unfold locked_pass.
  destruct (mInvalidate s).
  - intros [[= _ <-]|[w H]]; [|discriminate]. simpl.
    split; [reflexivity|]. split.
    + intros p. unfold update. destruct (Nat.eqb p (mInvalidateMessage s)); auto.
    + intros p Hp. now apply update_other.
  - destruct (mMessages s) as [|cur tl].
    + intros [H|[w [= _ <-]]]; [discriminate|]. auto.
    + destruct (when (heap s cur) <=? now).
      * intros [[= _ <-]|[w H]]; [|discriminate]. simpl. auto.
      * destruct ((0 <=? timeout) && (timeoutTime <? now)).
        -- intros [[= _ <-]|[w H]]; [|discriminate]. auto.
        -- intros [H|[w [= _ <-]]]; [discriminate|]. auto.
Qed.

Lemma exec_keeps_fields (timeout : Z) (env : list tick) :
  forall (at_ : position) (s : state),
    mInvalidateMessage (final (exec timeout env at_ s)) = mInvalidateMessage s /\
    (forall p, what (heap (final (exec timeout env at_ s)) p) = what (heap s p) /\
               handler (heap (final (exec timeout env at_ s)) p) = handler (heap s p)).
Proof.
  induction env as [|tk env IH]; intros at_ s.
  - simpl. auto.
  - destruct (producers_effect (producers tk) s) as [_ [_ [Hm0 Hf0]]].
    set (s0 := fold_left producer (producers tk) s) in *.
    assert (Hstep : forall s1,
      mInvalidateMessage s1 = mInvalidateMessage s0 ->
      (forall p, what (heap s1 p) = what (heap s0 p) /\
                 handler (heap s1 p) = handler (heap s0 p)) ->
      mInvalidateMessage s1 = mInvalidateMessage s /\
      (forall p, what (heap s1 p) = what (heap s p) /\
                 handler (heap s1 p) = handler (heap s p))).
    { intros s1 Hm1 Hf1. split; [congruence|].
      intros p. destruct (Hf1 p), (Hf0 p). split; congruence. }
    assert (Hrec : forall at' s1,
      mInvalidateMessage s1 = mInvalidateMessage s0 ->
      (forall p, what (heap s1 p) = what (heap s0 p) /\
                 handler (heap s1 p) = handler (heap s0 p)) ->
      mInvalidateMessage (final (exec timeout env at' s1)) = mInvalidateMessage s /\
      (forall p, what (heap (final (exec timeout env at' s1)) p) = what (heap s p) /\
                 handler (heap (final (exec timeout env at' s1)) p)
                 = handler (heap s p))).
    { intros at' s1 Hm1 Hf1. destruct (IH at' s1) as [Hm2 Hf2].
      destruct (Hstep s1 Hm1 Hf1) as [Hm3 Hf3].
      split; [congruence|].
      intros p. destruct (Hf2 p), (Hf3 p). split; congruence. }
    destruct at_ as [|timeoutTime]; simpl exec; fold s0.
    + simpl. apply Hrec; auto.
    + destruct (locked_pass timeout timeoutTime (time tk) s0)
        as [r s1|w s1] eqn:Hp.
      * destruct (locked_pass_keeps_fields timeout timeoutTime (time tk) s0 r s1)
          as [Hm1 [Hf1 _]]; [now left|].
        destruct r as [p|].
        -- destruct (handler (heap s1 p)); simpl.
           ++ now apply Hrec.
           ++ now apply Hstep.
        -- simpl. now apply Hstep.
      * destruct (locked_pass_keeps_fields timeout timeoutTime (time tk) s0 None s1)
          as [Hm1 [Hf1 _]]; [right; now exists w|].
        simpl. now apply Hrec.
Qed.

(** The queue never rewrites a message: over a whole call of [waitMessage],
    with producers posting and invalidating at any point, every object keeps
    its [what] and its [handler], and the invalidate message stays the same
    object; the only field the code writes is [when]. *)
Theorem waitMessage_keeps_what_and_handler :
  forall (timeout : Z) (env : list tick) (s : state),
    let r := waitMessage timeout env s in
    mInvalidateMessage (final r) = mInvalidateMessage s /\
    (forall p, what (heap (final r) p) = what (heap s p) /\
               handler (heap (final r) p) = handler (heap s p)).
Proof.
  intros timeout env s. apply exec_keeps_fields.
Qed.

(** ** Due times over whole calls *)









Lemma exec_inner_waiting (timeout timeoutTime : Z) (s : state) (cur : ptr)
    (tl : list ptr) (env : list tick) (ts : list Z) :
  mInvalidate s = false -> mMessages s = cur :: tl ->
  Forall (fun t => t < when (heap s cur) /\ (timeout < 0 \/ t <= timeoutTime)) ts ->
  result (exec timeout (map quiet ts ++ env) (Inner timeoutTime) s)
    = result (exec timeout env (Inner timeoutTime) s) /\
  final (exec timeout (map quiet ts ++ env) (Inner timeoutTime) s)
    = final (exec timeout env (Inner timeoutTime) s) /\
  trace (exec timeout (map quiet ts ++ env) (Inner timeoutTime) s)
    = map (fun _ => Wait (choose_wait timeout timeoutTime (when (heap s cur)))) ts
      ++ trace (exec timeout env (Inner timeoutTime) s).
Proof.
  intros Hi Hl. induction 1 as [|t ts [Hdue Hdl] Hts IH]; simpl.
  - auto.
  - unfold locked_pass. rewrite Hi, Hl.
    replace (when (heap s cur) <=? t) with false
      by (symmetry; apply Z.leb_gt; lia).
    replace ((0 <=? timeout) && (timeoutTime <? t)) with false.
    + simpl. destruct IH as [Hr [Hf Ht]]. rewrite Hr, Hf, Ht. auto.
    + symmetry. apply andb_false_iff. destruct Hdl as [Hneg|Hle].
      * left. apply Z.leb_gt. lia.
      * right. apply Z.ltb_ge. lia.
Qed.

(** A message is returned when its time comes.  With the latch clear, no
    producer, and a head whose handler returns false: as long as the clock
    readings are before the head's [when] (and, with a timeout that is not
    negative, not past the deadline, which is the reading at entry plus the
    timeout, representable in 64 bits) the call stays in the locked loop,
    and at the first reading at or after the head's [when] it returns the
    head and leaves the rest of the list. *)
Theorem head_is_returned_when_due :
  forall (timeout t0 t1 : Z) (ts : list Z) (s : state) (cur : ptr) (tl : list ptr),
    in_int64 (t0 + timeout) ->
    mInvalidate s = false -> mMessages s = cur :: tl ->
    handler (heap s cur) = false ->
    Forall (fun t => t < when (heap s cur) /\ (timeout < 0 \/ t <= t0 + timeout)) ts ->
    when (heap s cur) <= t1 ->
    let r := waitMessage timeout (quiet t0 :: map quiet ts ++ [quiet t1]) s in
    result r = Returned (Some cur) /\
    mMessages (final r) = tl /\ heap (final r) = heap s /\
    dispatched (trace r) = [cur].
Proof.
  intros timeout t0 t1 ts s cur tl _ Hi Hl Hh Hts Hdue r. subst r.
  unfold waitMessage. simpl exec. unfold log. simpl.
  destruct (exec_inner_waiting timeout (t0 + timeout) s cur tl [quiet t1] ts
              Hi Hl Hts) as [Hr [Hf Ht]].
  rewrite Hr, Hf, Ht. clear Hr Hf Ht. simpl.
  destruct (due_message_pass timeout (t0 + timeout) t1 s cur tl Hi Hl Hdue)
    as [s' [Hpass [Hl' [Hh' _]]]].
  rewrite Hpass, Hh', Hh. simpl.
  repeat split; try assumption.
  clear Hts. induction ts as [|t ts IH]; simpl; auto.
Qed.

Lemma head_is_returned_when_due_witness :
  let s := {| heap := objects; mMessages := [2%nat; 1%nat]; mInvalidate := false;
              mInvalidateMessage := 0%nat |} in
  result (waitMessage 100 (quiet 0 :: map quiet [0; 3] ++ [quiet 7]) s)
    = Returned (Some 2%nat) /\
  mMessages (final (waitMessage 100 (quiet 0 :: map quiet [0; 3] ++ [quiet 7]) s))
    = [1%nat].
Proof.
  intros s.
  destruct (head_is_returned_when_due 100 0 7 [0; 3] s 2%nat [1%nat])
    as [Hr [Hl _]];
    [unfold in_int64, INT64_MIN, INT64_MAX; simpl; lia
    | reflexivity | reflexivity | reflexivity | | unfold s; simpl; lia |].
  - repeat (apply Forall_cons; [unfold s; simpl; lia|]). apply Forall_nil.
  - split; [exact Hr | exact Hl].
Defined.

(** With a message queued that is not due, the timeout works.  With the
    latch clear, no producer and a timeout that is not negative: as long as
    the clock readings are before the head's [when] and not past the
    deadline the call stays in the locked loop, and at the first reading
    past the deadline (the head still not due) it returns nothing; no
    handler has run and the queue is as it was. *)
Theorem call_times_out_with_message_queued :
  forall (timeout t0 t1 : Z) (ts : list Z) (s : state) (cur : ptr) (tl : list ptr),
    mInvalidate s = false -> mMessages s = cur :: tl ->
    0 <= timeout ->
    Forall (fun t => t < when (heap s cur) /\ (timeout < 0 \/ t <= t0 + timeout)) ts ->
    t1 < when (heap s cur) -> t0 + timeout < t1 ->
    let r := waitMessage timeout (quiet t0 :: map quiet ts ++ [quiet t1]) s in
    result r = Returned None /\ final r = s /\ dispatched (trace r) = [].
Proof.
  intros timeout t0 t1 ts s cur tl Hi Hl Ht Hts Hdue Hpast r. subst r.
  unfold waitMessage. simpl exec. unfold log. simpl.
  destruct (exec_inner_waiting timeout (t0 + timeout) s cur tl [quiet t1] ts
              Hi Hl Hts) as [Hr [Hf Htr]].
  rewrite Hr, Hf, Htr. clear Hr Hf Htr. simpl.
  unfold locked_pass. rewrite Hi, Hl.
  replace (when (heap s cur) <=? t1) with false
    by (symmetry; apply Z.leb_gt; lia).
  replace (0 <=? timeout) with true by (symmetry; apply Z.leb_le; lia).
  replace (t0 + timeout <? t1) with true by (symmetry; apply Z.ltb_lt; lia).
  simpl. repeat split.
  clear Hts. induction ts as [|t ts IH]; simpl; auto.
Qed.

Lemma call_times_out_with_message_queued_witness :
  let s := {| heap := objects; mMessages := [2%nat]; mInvalidate := false;
              mInvalidateMessage := 0%nat |} in
  result (waitMessage 3 (quiet 0 :: map quiet [0; 3] ++ [quiet 4]) s)
    = Returned None /\
  final (waitMessage 3 (quiet 0 :: map quiet [0; 3] ++ [quiet 4]) s) = s.
Proof.
  intros s.
  destruct (call_times_out_with_message_queued 3 0 4 [0; 3] s 2%nat [])
    as [Hr [Hf _]];
    [reflexivity | reflexivity | lia | | unfold s; simpl; lia | lia |].
  - repeat (apply Forall_cons; [unfold s; simpl; lia|]). apply Forall_nil.
  - split; [exact Hr | exact Hf].
Defined.

(** ** dump and dumpLocked *)

Lemma dumpLocked_loop_length (h : store) (message : sp) (rest : list ptr) :
  forall c, length (dumpLocked_loop h message rest c) = length rest.
Proof.
  induction rest as [|cur rest IH]; intros c; simpl.
  - reflexivity.
  - now rewrite IH.
Qed.

Lemma sp_eqb_eq (a b : sp) : sp_eqb a b = true <-> a = b.
Proof.
  destruct a as [x|], b as [y|]; simpl; split; try discriminate; try reflexivity.
  - intros H. apply Nat.eqb_eq in H. now subst.
  - intros [= ->]. apply Nat.eqb_refl.
Qed.

Lemma dumpLocked_loop_nth (h : store) (message : sp) (rest : list ptr) :
  forall (c : Z) (n : nat) (p : ptr),
    nth_error rest n = Some p ->
    nth_error (dumpLocked_loop h message rest c) n =
    Some {| line_tick := if sp_eqb (Some p) message then ">"%char else " "%char;
            line_index := c + Z.of_nat n;
            line_what := what (h p); line_when := when (h p) |}.
Proof.
  induction rest as [|cur rest IH]; intros c n p; destruct n as [|n];
    cbn [nth_error dumpLocked_loop]; try discriminate.
  - intros [= ->]. do 2 f_equal. lia.
  - intros H. rewrite (IH (c + 1) n p H). do 2 f_equal. lia.
Qed.

(** [dumpLocked] logs one line per queued message, in list order and
    numbered from 0; line [n] shows [what] and [when] of the [n]-th message
    and carries the tick ['>'] exactly when that message is the object the
    argument points to (never for a null argument), a blank otherwise.
    [dump] logs the same lines and leaves the queue as it was. *)
Theorem dumpLocked_lines :
  forall (s : state) (message : sp),
    length (dumpLocked s message) = length (mMessages s) /\
    (forall n p, nth_error (mMessages s) n = Some p ->
       exists ln,
         nth_error (dumpLocked s message) n = Some ln /\
         line_index ln = Z.of_nat n /\
         line_what ln = what (heap s p) /\
         line_when ln = when (heap s p) /\
         (message = Some p -> line_tick ln = ">"%char) /\
         (message <> Some p -> line_tick ln = " "%char)) /\
    dump s message = (dumpLocked s message, s).
Proof.
  intros s message. unfold dumpLocked. split; [|split].
  - apply dumpLocked_loop_length.
  - intros n p Hn. eexists. split; [apply dumpLocked_loop_nth; exact Hn|].
    cbn [line_index line_what line_when line_tick].
    split; [lia|]. split; [reflexivity|]. split; [reflexivity|]. split.
    + intros ->.
      replace (sp_eqb (Some p) (Some p)) with true
        by (symmetry; now apply sp_eqb_eq).
      reflexivity.
    + intros Hne. destruct (sp_eqb (Some p) message) eqn:E; [|reflexivity].
      apply sp_eqb_eq in E. now subst.
  - reflexivity.
Qed.

(** ** Waiting without a deadline, and re-dispatch *)

(** With clock readings and deadlines that are not negative, a pass parks
    the consumer on the condition variable without a deadline exactly when
    the latch is clear and the list is empty, whatever the timeout is. *)
Theorem parks_without_deadline_iff_list_empty :
  forall (timeout timeoutTime now : Z) (s : state),
    0 <= now -> (0 <= timeout -> 0 <= timeoutTime) ->
    (locked_pass timeout timeoutTime now s = Again WaitForever s <->
     mInvalidate s = false /\ mMessages s = []).
Proof.
  intros timeout timeoutTime now s Hnow Hdl. split.
  - unfold locked_pass.
    destruct (mInvalidate s); [discriminate|].
    destruct (mMessages s) as [|cur tl]; [auto|].
    destruct (when (heap s cur) <=? now) eqn:Hdue; [discriminate|].
    destruct ((0 <=? timeout) && (timeoutTime <? now)); [discriminate|].
    apply Z.leb_gt in Hdue. unfold choose_wait.
    replace (0 <? when (heap s cur)) with true by (symmetry; apply Z.ltb_lt; lia).
    destruct (0 <=? timeout) eqn:Ht; simpl.
    + apply Z.leb_le in Ht. specialize (Hdl Ht).
      destruct (timeoutTime <? when (heap s cur)).
      * replace (0 <=? timeoutTime) with true by (symmetry; apply Z.leb_le; lia).
        destruct (0 <? timeoutTime); discriminate.
      * replace (0 <=? when (heap s cur)) with true
          by (symmetry; apply Z.leb_le; lia).
        destruct (0 <? when (heap s cur)); discriminate.
    + replace (0 <=? when (heap s cur)) with true
        by (symmetry; apply Z.leb_le; lia).
      destruct (0 <? when (heap s cur)); discriminate.
  - intros [Hi Hl]. now apply locked_pass_empty.
Qed.

Lemma parks_without_deadline_iff_list_empty_witness :
  locked_pass 20 20 0 fresh_queue = Again WaitForever fresh_queue /\
  locked_pass 20 20 0
    {| heap := objects; mMessages := [1%nat]; mInvalidate := false;
       mInvalidateMessage := 0%nat |}
  <> Again WaitForever
       {| heap := objects; mMessages := [1%nat]; mInvalidate := false;
          mInvalidateMessage := 0%nat |}.
Proof.
  split.
  - apply (parks_without_deadline_iff_list_empty 20 20 0 fresh_queue);
      [lia | lia | split; reflexivity].
  - intros H.
    apply (parks_without_deadline_iff_list_empty 20 20 0) in H; [|lia|lia].
    destruct H as [_ H]. discriminate H.
Defined.

(** Re-dispatch delivers the next message in the same call.  With the latch
    clear, no producer, and two due messages at the front of the list, the
    first with a handler that returns true and the second with one that
    returns false: one call of [waitMessage] runs both handlers in list
    order, reads the clock again for a new deadline in between, returns the
    second message and leaves the rest of the list. *)
Theorem redispatch_delivers_next_message :
  forall (timeout t0 t1 t2 t3 : Z) (s : state) (a b : ptr) (tl : list ptr),
    mInvalidate s = false -> mMessages s = a :: b :: tl ->
    handler (heap s a) = true -> handler (heap s b) = false ->
    when (heap s a) <= t1 -> when (heap s b) <= t3 ->
    let r := waitMessage timeout [quiet t0; quiet t1; quiet t2; quiet t3] s in
    result r = Returned (Some b) /\
    trace r = [Enter t0; Handler a true; Enter t2; Handler b false] /\
    mMessages (final r) = tl /\ heap (final r) = heap s.
Proof.
  intros timeout t0 t1 t2 t3 s a b tl Hi Hl Ha Hb Hda Hdb r. subst r.
  unfold waitMessage. simpl.
  destruct (due_message_pass timeout (t0 + timeout) t1 s a (b :: tl) Hi Hl Hda)
    as [s1 [Hp1 [Hl1 [Hh1 [Hi1 _]]]]].
  rewrite Hp1, Hh1, Ha. simpl.
  rewrite <- Hh1 in Hdb.
  destruct (due_message_pass timeout (t2 + timeout) t3 s1 b tl Hi1 Hl1 Hdb)
    as [s2 [Hp2 [Hl2 [Hh2 _]]]].
  rewrite Hp2, Hh2, Hh1, Hb. simpl.
  repeat split; try assumption. congruence.
Qed.

Lemma redispatch_delivers_next_message_witness :
  let s := {| heap := objects; mMessages := [3%nat; 1%nat; 2%nat];
              mInvalidate := false; mInvalidateMessage := 0%nat |} in
  result (waitMessage 100 [quiet 5; quiet 5; quiet 6; quiet 6] s)
    = Returned (Some 1%nat) /\
  mMessages (final (waitMessage 100 [quiet 5; quiet 5; quiet 6; quiet 6] s))
    = [2%nat].
Proof.
  intros s.
  destruct (redispatch_delivers_next_message 100 5 5 6 6 s 3%nat 1%nat [2%nat])
    as [Hr [_ [Hl _]]];
    [reflexivity | reflexivity | reflexivity | reflexivity
     | unfold s; simpl; lia | unfold s; simpl; lia |].
  split; [exact Hr | exact Hl].
Defined.
